(** * Endstone plugin manager: a shallow embedding of
      [src/endstone/plugin/simple_plugin_manager.cpp] and of the default
      hooks of [include/endstone/plugin/plugin_loader.h].

    Objects that the C++ code reaches through pointers ([Plugin *],
    [Permission *], [Permissible *]) live in explicit stores indexed by
    addresses; a null pointer is [None].  Operations whose C++ text
    dereferences a null pointer or a past-the-end iterator return
    [Undefined].  Finite maps are stdpp's [gmap]. *)

From Stdlib Require Import Ascii String.
From stdpp Require Import gmap strings list fin_maps.

Local Open Scope string_scope.
Local Open Scope list_scope.

(** ** Outcome of an operation: a value, or undefined behaviour. *)

Inductive outcome (A : Type) : Type :=
  | Done (a : A)
  | Undefined (why : string).
Arguments Done {A} a.
Arguments Undefined {A} why.

Global Instance outcome_ret : MRet outcome := fun A a => Done a.

Global Instance outcome_bind : MBind outcome := fun A B k m =>
  match m with
  | Done a => k a
  | Undefined w => Undefined w
  end.

(** ** Strings *)

(** [std::tolower] in the "C" locale, applied to one [unsigned char]. *)
Definition tolower (c : ascii) : ascii :=
  let n := nat_of_ascii c in
  if (65 <=? n)%nat && (n <=? 90)%nat then ascii_of_nat (n + 32) else c.

(** [std::transform(s.begin(), s.end(), s.begin(), tolower)]. *)
Fixpoint lower (s : string) : string :=
  match s with
  | EmptyString => EmptyString
  | String c rest => String (tolower c) (lower rest)
  end.

(** Modelled from the spec: [PluginDescription::ValidName] is declared in
    plugin_description.h, which is not among the sources; the spec gives
    the pattern as [[A-Za-z0-9_]+]. *)
Definition valid_name_char (c : ascii) : bool :=
  let n := nat_of_ascii c in
  ((65 <=? n)%nat && (n <=? 90)%nat)
  || ((97 <=? n)%nat && (n <=? 122)%nat)
  || ((48 <=? n)%nat && (n <=? 57)%nat)
  || (n =? 95)%nat.

Fixpoint all_chars (f : ascii → bool) (s : string) : bool :=
  match s with
  | EmptyString => true
  | String c rest => f c && all_chars f rest
  end.

(** [std::regex_match(name, PluginDescription::ValidName)]. *)
Definition ValidName (name : string) : bool :=
  match name with
  | EmptyString => false
  | _ => all_chars valid_name_char name
  end.

(** ** Data model *)

Definition addr := positive.

Inductive LogLevel := Info | Error.

Record LogRecord := { log_level : LogLevel; log_message : string }.

(** Modelled from the spec: the enumeration [PermissibleRole] is declared
    in permissible.h, which is not among the sources; the spec names the
    roles operator, non-operator and console. *)
Inductive PermissibleRole := Operator | NonOperator | Console.

Global Instance PermissibleRole_eq_dec : EqDecision PermissibleRole.
Proof. solve_decision. Defined.

Global Instance PermissibleRole_countable : Countable PermissibleRole.
Proof.
  refine (inj_countable'
    (fun r => match r with Operator => 0%nat | NonOperator => 1%nat | Console => 2%nat end)
    (fun n => match n with 0%nat => Operator | 1%nat => NonOperator | _ => Console end) _).
  by intros [].
Defined.

(** [PluginDescription]: the parts the manager reads. *)
Record PluginDescription := {
  getName : string;
  getFullName : string;
  getCommands : list string
}.

(** [Plugin]: its description and the [enabled] flag. *)
Record Plugin := {
  getDescription : PluginDescription;
  isEnabled : bool
}.

Definition setEnabled (b : bool) (p : Plugin) : Plugin :=
  {| getDescription := getDescription p; isEnabled := b |}.

(** [PluginCommand]: a declared command bound to the plugin object it
    was built for. *)
Record PluginCommand := { pc_command : string; pc_plugin : addr }.

(** [PluginLoader]: the two pure virtual members.  [loadPlugin] returns
    [None] for the null [unique_ptr]. *)
Record PluginLoader := {
  loader_loadPlugin : string → option Plugin;
  getPluginFileFilters : list string
}.

(** [Permission]: its name and its default-grant policy
    ([getDefault().hasPermission(role)]). *)
Record Permission := {
  perm_name : string;
  perm_default : PermissibleRole → bool
}.

(** A [Permissible &]: the address of the object and what [getRole()]
    returns. *)
Record Permissible := { permissible_addr : addr; getRole : PermissibleRole }.

(** File system, as far as [std::filesystem] is consulted. *)
Inductive FileType := RegularFile | Directory | OtherFile.

Record FileSystem := {
  fs_status : string → option FileType;
  fs_entries : string → list string
}.

Definition fs_exists (fs : FileSystem) (p : string) : bool :=
  match fs_status fs p with Some _ => true | None => false end.
Definition fs_is_regular_file (fs : FileSystem) (p : string) : bool :=
  match fs_status fs p with Some RegularFile => true | _ => false end.
Definition fs_is_directory (fs : FileSystem) (p : string) : bool :=
  match fs_status fs p with Some Directory => true | _ => false end.

(** ** The manager and the objects it points to *)

(** [file_associations_[pattern] = value] on a map from pattern to loader
    pointer: an existing key keeps its place and takes the new value, a
    new key is added.

    Modelled from the spec: the declaration of [file_associations_] is in
    simple_plugin_manager.h, which is not among the sources; the spec
    gives its traversal order as registration order, so a new key goes
    last. *)
Fixpoint assoc_assign {V} (k : string) (v : V) (l : list (string * V)) : list (string * V) :=
  match l with
  | [] => [(k, v)]
  | (k', v') :: rest =>
      if decide (k' = k) then (k, v) :: rest else (k', v') :: assoc_assign k v rest
  end.

Fixpoint assoc_find {V} (k : string) (l : list (string * V)) : option V :=
  match l with
  | [] => None
  | (k', v') :: rest => if decide (k' = k) then Some v' else assoc_find k rest
  end.

(** [m[k]] on a map whose values are themselves maps: an absent key is
    first inserted with an empty value.  Returns the map after the access
    and the value found. *)
Definition subscript {K} `{Countable K} {V} `{Empty V}
    (m : gmap K V) (k : K) : gmap K V * V :=
  match m !! k with
  | Some v => (m, v)
  | None => (<[k := ∅]> m, ∅)
  end.

(** The members of [SimplePluginManager], followed by what they refer to:
    the [Plugin] and [Permission] objects behind the pointers, the log,
    the registrations received by the [SimpleCommandMap] and the calls of
    [Permissible::recalculatePermissions], oldest first. *)
Record Manager := {
  file_associations_ : list (string * option PluginLoader);
  plugins_ : list addr;
  lookup_names_ : gmap string addr;
  permissions_ : gmap string addr;
  default_permissions_ : gmap PermissibleRole (list addr);
  default_subscriptions_ : gmap PermissibleRole (gmap addr bool);
  permission_subscriptions_ : gmap string (gmap addr bool);
  plugin_store : gmap addr Plugin;
  permission_store : gmap addr Permission;
  logged : list LogRecord;
  command_map_ : list (string * list PluginCommand);
  recalculated : list addr
}.

Definition set_file_associations_ v (s : Manager) : Manager :=
  Build_Manager v (plugins_ s) (lookup_names_ s) (permissions_ s)
    (default_permissions_ s) (default_subscriptions_ s) (permission_subscriptions_ s)
    (plugin_store s) (permission_store s) (logged s) (command_map_ s) (recalculated s).
Definition set_plugins_ v (s : Manager) : Manager :=
  Build_Manager (file_associations_ s) v (lookup_names_ s) (permissions_ s)
    (default_permissions_ s) (default_subscriptions_ s) (permission_subscriptions_ s)
    (plugin_store s) (permission_store s) (logged s) (command_map_ s) (recalculated s).
Definition set_lookup_names_ v (s : Manager) : Manager :=
  Build_Manager (file_associations_ s) (plugins_ s) v (permissions_ s)
    (default_permissions_ s) (default_subscriptions_ s) (permission_subscriptions_ s)
    (plugin_store s) (permission_store s) (logged s) (command_map_ s) (recalculated s).
Definition set_permissions_ v (s : Manager) : Manager :=
  Build_Manager (file_associations_ s) (plugins_ s) (lookup_names_ s) v
    (default_permissions_ s) (default_subscriptions_ s) (permission_subscriptions_ s)
    (plugin_store s) (permission_store s) (logged s) (command_map_ s) (recalculated s).
Definition set_default_permissions_ v (s : Manager) : Manager :=
  Build_Manager (file_associations_ s) (plugins_ s) (lookup_names_ s) (permissions_ s)
    v (default_subscriptions_ s) (permission_subscriptions_ s)
    (plugin_store s) (permission_store s) (logged s) (command_map_ s) (recalculated s).
Definition set_default_subscriptions_ v (s : Manager) : Manager :=
  Build_Manager (file_associations_ s) (plugins_ s) (lookup_names_ s) (permissions_ s)
    (default_permissions_ s) v (permission_subscriptions_ s)
    (plugin_store s) (permission_store s) (logged s) (command_map_ s) (recalculated s).
Definition set_permission_subscriptions_ v (s : Manager) : Manager :=
  Build_Manager (file_associations_ s) (plugins_ s) (lookup_names_ s) (permissions_ s)
    (default_permissions_ s) (default_subscriptions_ s) v
    (plugin_store s) (permission_store s) (logged s) (command_map_ s) (recalculated s).
Definition set_plugin_store v (s : Manager) : Manager :=
  Build_Manager (file_associations_ s) (plugins_ s) (lookup_names_ s) (permissions_ s)
    (default_permissions_ s) (default_subscriptions_ s) (permission_subscriptions_ s)
    v (permission_store s) (logged s) (command_map_ s) (recalculated s).
Definition set_permission_store v (s : Manager) : Manager :=
  Build_Manager (file_associations_ s) (plugins_ s) (lookup_names_ s) (permissions_ s)
    (default_permissions_ s) (default_subscriptions_ s) (permission_subscriptions_ s)
    (plugin_store s) v (logged s) (command_map_ s) (recalculated s).
Definition set_logged v (s : Manager) : Manager :=
  Build_Manager (file_associations_ s) (plugins_ s) (lookup_names_ s) (permissions_ s)
    (default_permissions_ s) (default_subscriptions_ s) (permission_subscriptions_ s)
    (plugin_store s) (permission_store s) v (command_map_ s) (recalculated s).
Definition set_command_map_ v (s : Manager) : Manager :=
  Build_Manager (file_associations_ s) (plugins_ s) (lookup_names_ s) (permissions_ s)
    (default_permissions_ s) (default_subscriptions_ s) (permission_subscriptions_ s)
    (plugin_store s) (permission_store s) (logged s) v (recalculated s).
Definition set_recalculated v (s : Manager) : Manager :=
  Build_Manager (file_associations_ s) (plugins_ s) (lookup_names_ s) (permissions_ s)
    (default_permissions_ s) (default_subscriptions_ s) (permission_subscriptions_ s)
    (plugin_store s) (permission_store s) (logged s) (command_map_ s) v.

(** A manager right after construction: the constructor initialises the
    two references only, and every container starts empty. *)
Definition new_manager : Manager :=
  Build_Manager [] [] ∅ ∅ ∅ ∅ ∅ ∅ ∅ [] [] [].

(** [getLogger().error(msg)] and [getLogger()->info(msg)]. *)
Definition log_error (msg : string) (s : Manager) : Manager :=
  set_logged (logged s ++ [{| log_level := Error; log_message := msg |}]) s.
Definition log_info (msg : string) (s : Manager) : Manager :=
  set_logged (logged s ++ [{| log_level := Info; log_message := msg |}]) s.

(** [command_map_.registerAll(owner, commands)]. *)
Definition registerAll (owner : string) (commands : list PluginCommand) (s : Manager) : Manager :=
  set_command_map_ (command_map_ s ++ [(owner, commands)]) s.

(** [p->recalculatePermissions()]. *)
Definition recalculatePermissions (p : addr) (s : Manager) : Manager :=
  set_recalculated (recalculated s ++ [p]) s.

(** ** Operations of [SimplePluginManager] *)

Section Operations.

(** [std::regex_search(subject, std::regex(pattern))]; [None] when the
    pattern is not a regular expression and the constructor of
    [std::regex] throws inside a [noexcept] function. *)
Variable regex_search : string → string → option bool.

Variable fs : FileSystem.

(** The policy of a freshly built [SimplePermission]; simple_permission.h
    is not among the sources. *)
Variable SimplePermission_default : PermissibleRole → bool.

Definition SimplePermission (name : string) : Permission :=
  {| perm_name := name; perm_default := SimplePermission_default |}.

(** [registerLoader]: the loop body moves from [loader], so the local
    pointer is null from the second iteration on. *)
Fixpoint registerLoader_loop (patterns : list string) (loader : option PluginLoader)
    (assocs : list (string * option PluginLoader)) : list (string * option PluginLoader) :=
  match patterns with
  | [] => assocs
  | pattern :: rest => registerLoader_loop rest None (assoc_assign pattern loader assocs)
  end.

Definition registerLoader (loader : PluginLoader) (s : Manager) : Manager :=
  let patterns := getPluginFileFilters loader in
  set_file_associations_
    (registerLoader_loop patterns (Some loader) (file_associations_ s)) s.

(** [getPlugin]: [None] is [nullptr]. *)
Definition getPlugin (name : string) (s : Manager) : option addr :=
  match lookup_names_ s !! name with
  | Some it => Some it
  | None => None
  end.

Definition getPlugins (s : Manager) : list addr := plugins_ s.

(** [isPluginEnabled] on a pointer to a [Plugin]. *)
Definition isPluginEnabled_ptr (plugin : option addr) (s : Manager) : outcome bool :=
  match plugin with
  | None => Done false
  | Some p =>
      if bool_decide (p ∈ plugins_ s) then
        match plugin_store s !! p with
        | Some obj => Done (isEnabled obj)
        | None => Undefined "plugin->isEnabled() on a destroyed Plugin"
        end
      else Done false
  end.

(** [isPluginEnabled] on a name. *)
Definition isPluginEnabled (name : string) (s : Manager) : outcome bool :=
  isPluginEnabled_ptr (getPlugin name s) s.

(** The loop of [loadPlugin] over [file_associations_]. *)
Fixpoint loadPlugin_loop (assocs : list (string * option PluginLoader)) (file : string)
    (s : Manager) : outcome (option addr * Manager) :=
  match assocs with
  | [] => Done (None, s)
  | (pattern, loader) :: rest =>
      match regex_search file pattern with
      | None => Undefined "std::regex_error in a noexcept function"
      | Some false => loadPlugin_loop rest file s
      | Some true =>
          match loader with
          | None => Undefined "loader->loadPlugin on a null loader"
          | Some l =>
              match loader_loadPlugin l file with
              | Some plugin =>
                  let plugin_ptr := fresh (dom (plugin_store s)) in
                  let name := getName (getDescription plugin) in
                  if negb (ValidName name) then
                    Done (None,
                          log_error ("Could not load plugin from '" +:+ file
                                     +:+ "': Plugin name contains invalid characters.") s)
                  else
                    Done (Some plugin_ptr,
                          set_plugins_ (plugins_ s ++ [plugin_ptr])
                            (set_lookup_names_ (<[name := plugin_ptr]> (lookup_names_ s))
                               (set_plugin_store (<[plugin_ptr := plugin]> (plugin_store s)) s)))
              | None => loadPlugin_loop rest file s
              end
          end
      end
  end.

Definition loadPlugin (file : string) (s : Manager) : outcome (option addr * Manager) :=
  let s1 :=
    if negb (fs_exists fs file) then
      log_error ("Could not load plugin from '" +:+ file
                 +:+ "': Provided file does not exist.") s
    else s in
  loadPlugin_loop (file_associations_ s1) file s1.

(** [entry.path() / "plugin.toml"]. *)
Definition path_join (p q : string) : string := p +:+ "/" +:+ q.

(** The file a directory entry stands for, if any. *)
Definition entry_file (entry : string) : option string :=
  if fs_is_regular_file fs entry then Some entry
  else if fs_is_directory fs entry then
    let file := path_join entry "plugin.toml" in
    if negb (fs_exists fs file) || negb (fs_is_regular_file fs file) then None
    else Some file
  else None.

(** The loop of [loadPlugins] over the directory entries. *)
Fixpoint loadPlugins_loop (entries : list string) (loaded_plugins : list addr)
    (s : Manager) : outcome (list addr * Manager) :=
  match entries with
  | [] => Done (loaded_plugins, s)
  | entry :: rest =>
      match entry_file entry with
      | None => loadPlugins_loop rest loaded_plugins s
      | Some file =>
          r ← loadPlugin file s;
          match r.1 with
          | Some plugin => loadPlugins_loop rest (loaded_plugins ++ [plugin]) r.2
          | None => loadPlugins_loop rest loaded_plugins r.2
          end
      end
  end.

Definition loadPlugins (directory : string) (s : Manager) : outcome (list addr * Manager) :=
  if negb (fs_exists fs directory) then
    Done ([], log_error ("Error occurred when trying to load plugins in '" +:+ directory
                         +:+ "': Provided directory does not exist.") s)
  else if negb (fs_is_directory fs directory) then
    Done ([], log_error ("Error occurred when trying to load plugins in '" +:+ directory
                         +:+ "': Provided path is not a directory.") s)
  else loadPlugins_loop (fs_entries fs directory) [] s.

(** [PluginLoader::enablePlugin] and [PluginLoader::disablePlugin], the
    implementations of plugin_loader.h. *)
Definition PluginLoader_enablePlugin (plugin : addr) (s : Manager) : outcome Manager :=
  match plugin_store s !! plugin with
  | None => Undefined "use of a destroyed Plugin"
  | Some obj =>
      if negb (isEnabled obj) then
        let s1 := log_info ("Enabling " +:+ getFullName (getDescription obj)) s in
        Done (set_plugin_store (<[plugin := setEnabled true obj]> (plugin_store s1)) s1)
      else Done s
  end.

Definition PluginLoader_disablePlugin (plugin : addr) (s : Manager) : outcome Manager :=
  match plugin_store s !! plugin with
  | None => Undefined "use of a destroyed Plugin"
  | Some obj =>
      if isEnabled obj then
        let s1 := log_info ("Disabling " +:+ getFullName (getDescription obj)) s in
        Done (set_plugin_store (<[plugin := setEnabled false obj]> (plugin_store s1)) s1)
      else Done s
  end.

(** [enablePlugin(Plugin &)]. *)
Definition enablePlugin (plugin : addr) (s : Manager) : outcome Manager :=
  match plugin_store s !! plugin with
  | None => Undefined "use of a destroyed Plugin"
  | Some obj =>
      if negb (isEnabled obj) then
        let commands := getCommands (getDescription obj) in
        let s1 :=
          match commands with
          | [] => s
          | _ =>
              let plugin_commands :=
                map (fun command => {| pc_command := command; pc_plugin := plugin |}) commands in
              registerAll (getName (getDescription obj)) plugin_commands s
          end in
        PluginLoader_enablePlugin plugin s1
      else Done s
  end.

(** [disablePlugin(Plugin &)]. *)
Definition disablePlugin (plugin : addr) (s : Manager) : outcome Manager :=
  match plugin_store s !! plugin with
  | None => Undefined "use of a destroyed Plugin"
  | Some obj =>
      if isEnabled obj then PluginLoader_disablePlugin plugin s else Done s
  end.

Fixpoint disablePlugins_loop (plugins : list addr) (s : Manager) : outcome Manager :=
  match plugins with
  | [] => Done s
  | plugin :: rest => s1 ← disablePlugin plugin s; disablePlugins_loop rest s1
  end.

Definition disablePlugins (s : Manager) : outcome Manager :=
  disablePlugins_loop (plugins_ s) s.

(** [clearPlugins]: clearing [plugins_] destroys the owned objects. *)
Definition clearPlugins (s : Manager) : outcome Manager :=
  s1 ← disablePlugins s;
  mret (set_lookup_names_ ∅
          (set_plugins_ []
             (set_plugin_store
                (foldr (fun p store => delete p store) (plugin_store s1) (plugins_ s1)) s1))).

(** [getPermission]: [None] is [nullptr]. *)
Definition getPermission (name : string) (s : Manager) : option addr :=
  let lower_name := lower name in
  match permissions_ s !! lower_name with
  | Some it => Some it
  | None => None
  end.

(** [getDefaultPermissionSubscriptions]: the keys of the role's map. *)
Definition getDefaultPermissionSubscriptions (role : PermissibleRole) (s : Manager) : list addr :=
  match default_subscriptions_ s !! role with
  | None => []
  | Some map => (map_to_list map).*1
  end.

(** [updatePermissibles]. *)
Definition updatePermissibles (role : PermissibleRole) (s : Manager) : Manager :=
  let permissibles := getDefaultPermissionSubscriptions role s in
  fold_left (fun s' p => recalculatePermissions p s') permissibles s.

(** One iteration of the loop of [calculatePermissionDefault], at the
    entry of [default_permissions_] for [role]. *)
Definition calculatePermissionDefault_step (permission : addr)
    (hasPermission : PermissibleRole → bool) (update : bool)
    (s : Manager) (role : PermissibleRole) : Manager :=
  if negb (hasPermission role) then s
  else
    let s1 :=
      set_default_permissions_
        (alter (fun permissions => permissions ++ [permission]) role
           (default_permissions_ s)) s in
    if update then updatePermissibles role s1 else s1.

(** [calculatePermissionDefault]: the loop visits the roles that are keys
    of [default_permissions_]. *)
Definition calculatePermissionDefault (permission : addr) (update : bool)
    (s : Manager) : outcome Manager :=
  match permission_store s !! permission with
  | None => Undefined "use of a destroyed Permission"
  | Some obj =>
      Done (fold_left (calculatePermissionDefault_step permission (perm_default obj) update)
              (map_to_list (default_permissions_ s)).*1 s)
  end.

(** [addPermission(name, update)]: [insert] keeps an existing entry, and
    the node built for the call is then destroyed with the argument. *)
Definition addPermission (name : string) (update : bool) (s : Manager)
    : outcome (addr * Manager) :=
  let lower_name := lower name in
  match permissions_ s !! lower_name with
  | Some it =>
      Done (it, log_error ("The permission " +:+ lower_name +:+ " is already defined.") s)
  | None =>
      let permission := fresh (dom (permission_store s)) in
      let s1 :=
        set_permissions_ (<[lower_name := permission]> (permissions_ s))
          (set_permission_store
             (<[permission := SimplePermission lower_name]> (permission_store s)) s) in
      s2 ← calculatePermissionDefault permission update s1;
      mret (permission, s2)
  end.

(** [removePermission]: erasing the entry destroys the node it owns. *)
Definition removePermission (name : string) (s : Manager) : Manager :=
  let lower_name := lower name in
  match permissions_ s !! lower_name with
  | None => s
  | Some it =>
      set_permissions_ (delete lower_name (permissions_ s))
        (set_permission_store (delete it (permission_store s)) s)
  end.

(** [getDefaultPermissions]: [find(role)->second] without a test against
    [end()]. *)
Definition getDefaultPermissions (role : PermissibleRole) (s : Manager) : outcome (list addr) :=
  match default_permissions_ s !! role with
  | Some permissions => Done permissions
  | None => Undefined "default_permissions_.find(role) is end()"
  end.

(** [subscribeToDefaultPermissions]. *)
Definition subscribeToDefaultPermissions (permissible : Permissible) (s : Manager) : Manager :=
  let '(m, map) := subscript (default_subscriptions_ s) (getRole permissible) in
  set_default_subscriptions_
    (<[getRole permissible := <[permissible_addr permissible := true]> map]> m) s.

(** [unsubscribeFromDefaultPermissions]. *)
Definition unsubscribeFromDefaultPermissions (permissible : Permissible) (s : Manager) : Manager :=
  let '(m, map) := subscript (default_subscriptions_ s) (getRole permissible) in
  set_default_subscriptions_
    (<[getRole permissible := delete (permissible_addr permissible) map]> m) s.

(** [subscribeToPermission]: [auto &map], the entry itself is updated. *)
Definition subscribeToPermission (permission : string) (permissible : Permissible)
    (s : Manager) : Manager :=
  let lower_name := lower permission in
  let '(m, map) := subscript (permission_subscriptions_ s) lower_name in
  set_permission_subscriptions_
    (<[lower_name := <[permissible_addr permissible := true]> map]> m) s.

(** [unsubscribeFromPermission]: [auto map], a copy of the entry; the
    erased copy goes out of scope at the end of the function. *)
Definition unsubscribeFromPermission (permission : string) (permissible : Permissible)
    (s : Manager) : Manager :=
  let lower_name := lower permission in
  let '(m, map) := subscript (permission_subscriptions_ s) lower_name in
  let map := delete (permissible_addr permissible) map in
  set_permission_subscriptions_ m s.

(** [getPermissionSubscriptions]. *)
Definition getPermissionSubscriptions (permission : string) (s : Manager) : list addr :=
  let lower_name := lower permission in
  match permission_subscriptions_ s !! lower_name with
  | None => []
  | Some map => (map_to_list map).*1
  end.

(** [recalculatePermissionDefaults]. *)
Definition recalculatePermissionDefaults (permission : addr) (s : Manager) : outcome Manager :=
  match permission_store s !! permission with
  | None => Undefined "use of a destroyed Permission"
  | Some obj =>
      let lower_name := lower (perm_name obj) in
      let s1 :=
        set_default_permissions_
          (fmap (fun permissions => filter (fun p => p ≠ permission) permissions)
                (default_permissions_ s)) s in
      calculatePermissionDefault permission true s1
  end.

End Operations.

(** ** Notions used to state the properties *)

(** Two characters that are equal up to ASCII case. *)
Definition is_upper (c : ascii) : bool :=
  (65 <=? nat_of_ascii c)%nat && (nat_of_ascii c <=? 90)%nat.

Definition char_eq_ignore_case (c d : ascii) : Prop :=
  c = d
  ∨ (is_upper c = true ∧ nat_of_ascii d = (nat_of_ascii c + 32)%nat)
  ∨ (is_upper d = true ∧ nat_of_ascii c = (nat_of_ascii d + 32)%nat).

(** Two names that are equal up to ASCII case, character by character. *)
Inductive eq_ignore_case : string → string → Prop :=
  | eq_ignore_case_nil : eq_ignore_case EmptyString EmptyString
  | eq_ignore_case_cons c d s t :
      char_eq_ignore_case c d → eq_ignore_case s t →
      eq_ignore_case (String c s) (String d t).

(** The addresses in [plugins_] whose object carries the name [name]. *)
Definition plugin_name_at (s : Manager) (a : addr) : option string :=
  match plugin_store s !! a with
  | Some obj => Some (getName (getDescription obj))
  | None => None
  end.

Definition plugins_named (name : string) (s : Manager) : list addr :=
  filter (fun a => plugin_name_at s a = Some name) (plugins_ s).

(** What a pass over the default sets cannot touch: the node table, the
    nodes and the log. *)
Definition same_nodes (s s' : Manager) : Prop :=
  permissions_ s' = permissions_ s
  ∧ permission_store s' = permission_store s
  ∧ logged s' = logged s.

(** A load that is turned down as a duplicate: the null pointer comes
    back, and [original] is the one plugin called [name]. *)
Definition rejected_as_duplicate (r : outcome (option addr * Manager))
    (name : string) (original : addr) : Prop :=
  ∃ s', r = Done (None, s') ∧ plugins_named name s' = [original].

Section Candidates.

Variable regex_search : string → string → option bool.
Variable fs : FileSystem.

(** What the loaders make of [file]: the plugin built by the first
    association whose pattern matches and whose loader accepts the file. *)
Fixpoint produced (assocs : list (string * option PluginLoader)) (file : string)
    : option Plugin :=
  match assocs with
  | [] => None
  | (pattern, loader) :: rest =>
      match regex_search file pattern, loader with
      | Some true, Some l =>
          match loader_loadPlugin l file with
          | Some plugin => Some plugin
          | None => produced rest file
          end
      | _, _ => produced rest file
      end
  end.

(** What the search of [loadPlugin] through the associations comes to for
    [file], the associations being tried in order: the plugin built by
    the first association whose pattern matches and whose loader accepts
    the file, [None] when the search ends without one, and no result when
    the search meets, before that, a pattern that is no regular
    expression or a matching pattern whose loader pointer is null. *)
Fixpoint first_built (assocs : list (string * option PluginLoader)) (file : string)
    : outcome (option Plugin) :=
  match assocs with
  | [] => Done None
  | (pattern, loader) :: rest =>
      match regex_search file pattern with
      | None => Undefined "std::regex_error in a noexcept function"
      | Some false => first_built rest file
      | Some true =>
          match loader with
          | None => Undefined "loader->loadPlugin on a null loader"
          | Some l =>
              match loader_loadPlugin l file with
              | Some plugin => Done (Some plugin)
              | None => first_built rest file
              end
          end
      end
  end.

(** A candidate loads successfully when a loader builds a plugin for it
    and the plugin's name is valid. *)
Definition loads (assocs : list (string * option PluginLoader)) (file : string) : bool :=
  match produced assocs file with
  | Some plugin => ValidName (getName (getDescription plugin))
  | None => false
  end.

(** Every pattern is a regular expression and every association holds a
    loader, as far as [file] is concerned. *)
Definition usable_for (file : string) (assocs : list (string * option PluginLoader)) : bool :=
  forallb (fun '(pattern, loader) =>
             match regex_search file pattern, loader with
             | Some _, Some _ => true
             | _, _ => false
             end) assocs.

(** The candidates of a directory: its regular files, and the
    [plugin.toml] of each subdirectory that has one. *)
Definition candidates (directory : string) : list string :=
  omap (entry_file fs) (fs_entries fs directory).

(** What [loadPlugins] hands back for an address: the plugin that the
    loaders made of the corresponding candidate. *)
Definition loaded_from (assocs : list (string * option PluginLoader)) (s' : Manager)
    (a : addr) (file : string) : Prop :=
  ∃ plugin, produced assocs file = Some plugin
            ∧ ValidName (getName (getDescription plugin)) = true
            ∧ plugin_store s' !! a = Some plugin.

End Candidates.

(** ** Concrete objects for the examples *)

Module Examples.

(** A pattern language for the examples: the pattern is a literal suffix
    of the file name. *)
Fixpoint ends_with (n : nat) (subject suffix : string) : bool :=
  if String.eqb subject suffix then true
  else match n, subject with
       | S n', String _ rest => ends_with n' rest suffix
       | _, _ => false
       end.

Definition suffix_search (subject pattern : string) : option bool :=
  Some (ends_with (String.length subject) subject pattern).

Definition plugin_called (name : string) : Plugin :=
  {| getDescription :=
       {| getName := name; getFullName := name +:+ " v1.0"; getCommands := ["hello"] |};
     isEnabled := false |}.

(** A loader for shared objects: it declines [plugins/bad.so], builds a
    plugin with a space in its name from [plugins/odd.so], and a plugin
    called [demo] from any other file. *)
Definition so_loader : PluginLoader :=
  {| loader_loadPlugin := fun file =>
       if String.eqb file "plugins/bad.so" then None
       else if String.eqb file "plugins/odd.so" then Some (plugin_called "my plugin")
       else Some (plugin_called "demo");
     getPluginFileFilters := [".so"] |}.

(** A loader that declares two patterns. *)
Definition native_loader : PluginLoader :=
  {| loader_loadPlugin := fun file => Some (plugin_called "native");
     getPluginFileFilters := [".dll"; ".so"] |}.

Definition disk : FileSystem :=
  {| fs_status := fun p =>
       if String.eqb p "plugins" then Some Directory
       else if String.eqb p "plugins/a.so" then Some RegularFile
       else if String.eqb p "plugins/b.so" then Some RegularFile
       else if String.eqb p "plugins/bad.so" then Some RegularFile
       else if String.eqb p "plugins/odd.so" then Some RegularFile
       else if String.eqb p "plugins/notes" then Some Directory
       else None;
     fs_entries := fun p =>
       if String.eqb p "plugins"
       then ["plugins/bad.so"; "plugins/a.so"; "plugins/notes"; "plugins/odd.so"]
       else [] |}.

Definition deny_all : PermissibleRole → bool := fun _ => false.
Definition grant_operator : PermissibleRole → bool :=
  fun role => match role with Operator => true | _ => false end.

Definition alice : Permissible := {| permissible_addr := 7%positive; getRole := Operator |}.

(** A manager with [so_loader] registered. *)
Definition with_so_loader : Manager := registerLoader so_loader new_manager.

(** The same manager once [plugins/a.so] is loaded: [demo] is registered
    at address 1. *)
Definition with_demo : Manager :=
  set_plugins_ [1%positive]
    (set_lookup_names_ {[ "demo" := 1%positive ]}
       (set_plugin_store {[ 1%positive := plugin_called "demo" ]} with_so_loader)).

(** A manager whose default sets have an entry for [Operator] only. *)
Definition with_operator_defaults : Manager :=
  set_default_permissions_ {[ Operator := [] ]} new_manager.

(** That manager after [addPermission("x")], for nodes whose policy
    grants operators: the node is at address 1 and in the default set of
    [Operator]. *)
Definition with_x : Manager :=
  match addPermission grant_operator "x" true with_operator_defaults with
  | Done (_, s) => s
  | Undefined _ => with_operator_defaults
  end.

(** A loader for scripts, with one pattern. *)
Definition py_loader : PluginLoader :=
  {| loader_loadPlugin := fun file => Some (plugin_called "script");
     getPluginFileFilters := [".py"] |}.

(** A directory with a script and a shared object. *)
Definition mods_disk : FileSystem :=
  {| fs_status := fun p =>
       if String.eqb p "mods" then Some Directory
       else if String.eqb p "mods/a.py" then Some RegularFile
       else if String.eqb p "mods/b.so" then Some RegularFile
       else None;
     fs_entries := fun p =>
       if String.eqb p "mods" then ["mods/a.py"; "mods/b.so"] else [] |}.

(** The manager after [registerLoader] of [py_loader] and then of
    [native_loader]: the second pattern of [native_loader] holds a null
    pointer. *)
Definition with_two_loaders : Manager :=
  registerLoader native_loader (registerLoader py_loader new_manager).

(** That manager once [mods/a.py] is loaded: [script] is registered at
    address 1. *)
Definition with_script : Manager :=
  match loadPlugin suffix_search mods_disk "mods/a.py" with_two_loaders with
  | Done (_, s) => s
  | Undefined _ => with_two_loaders
  end.


(** A plugin that declares no command. *)
Definition quiet_plugin : Plugin :=
  {| getDescription := {| getName := "quiet"; getFullName := "quiet v0.1"; getCommands := [] |};
     isEnabled := false |}.

Definition bob : Permissible := {| permissible_addr := 8%positive; getRole := NonOperator |}.

(** A manager with default sets for two roles and one subscriber each. *)
Definition with_subscribers : Manager :=
  subscribeToDefaultPermissions bob
    (subscribeToDefaultPermissions alice
       (set_default_permissions_ {[ Operator := []; NonOperator := [] ]} new_manager)).

End Examples.

(** ** Invariants and frames *)

(** The plugin registry is consistent when no address is owned twice,
    every owned address leads to a live object, and every entry of the
    name index leads to an owned object that carries that name. *)
Definition registry_consistent (s : Manager) : Prop :=
  NoDup (plugins_ s)
  ∧ (∀ a, a ∈ plugins_ s → is_Some (plugin_store s !! a))
  ∧ (∀ name a, lookup_names_ s !! name = Some a →
       a ∈ plugins_ s ∧ plugin_name_at s a = Some name).

(** Everything that is not part of the plugin registry or the log: the
    loader associations, the permission side, the command map and the
    record of notifications. *)
Definition outside_plugins_same (s s' : Manager) : Prop :=
  file_associations_ s' = file_associations_ s
  ∧ permissions_ s' = permissions_ s
  ∧ permission_store s' = permission_store s
  ∧ default_permissions_ s' = default_permissions_ s
  ∧ default_subscriptions_ s' = default_subscriptions_ s
  ∧ permission_subscriptions_ s' = permission_subscriptions_ s
  ∧ command_map_ s' = command_map_ s
  ∧ recalculated s' = recalculated s.

(** Everything but the default sets and the record of notifications. *)
Definition defaults_frame (s s' : Manager) : Prop :=
  file_associations_ s' = file_associations_ s
  ∧ plugins_ s' = plugins_ s
  ∧ lookup_names_ s' = lookup_names_ s
  ∧ plugin_store s' = plugin_store s
  ∧ permissions_ s' = permissions_ s
  ∧ permission_store s' = permission_store s
  ∧ default_subscriptions_ s' = default_subscriptions_ s
  ∧ permission_subscriptions_ s' = permission_subscriptions_ s
  ∧ logged s' = logged s
  ∧ command_map_ s' = command_map_ s.

(** The permissibles that a pass of [calculatePermissionDefault] over the
    roles [roles] notifies, in order, for a policy [policy]. *)
Definition notified_for (policy : PermissibleRole → bool) (roles : list PermissibleRole)
    (s : Manager) : list addr :=
  flat_map (fun role =>
              if policy role then getDefaultPermissionSubscriptions role s else []) roles.

(** The registration that [enablePlugin] hands to the command map for a
    plugin object at [plugin]: none when it declares no command. *)
Definition command_registration (plugin : addr) (obj : Plugin)
    : list (string * list PluginCommand) :=
  match getCommands (getDescription obj) with
  | [] => []
  | commands =>
      [(getName (getDescription obj),
        map (fun command => {| pc_command := command; pc_plugin := plugin |}) commands)]
  end.

(** ** The states the manager can be in *)

Section Reachability.

Variable regex_search : string → string → option bool.
Variable fs : FileSystem.
Variable SimplePermission_default : PermissibleRole → bool.


End Reachability.

(** * Properties *)

(** ** Helper lemmas on names and containers *)

Lemma lower_idempotent s : lower (lower s) = lower s.
Proof.
  induction s as [|c s IH]; simpl; [done|].
  f_equal; [|done].
  unfold tolower.
  destruct ((65 <=? nat_of_ascii c)%nat && (nat_of_ascii c <=? 90)%nat) eqn:Hup.
  - apply andb_true_iff in Hup as [H1 H2].
    apply Nat.leb_le in H1, H2.
    rewrite nat_ascii_embedding by lia.
    replace ((nat_of_ascii c + 32 <=? 90)%nat) with false
      by (symmetry; apply Nat.leb_gt; lia).
    by rewrite andb_false_r.
  - by rewrite Hup.
Qed.

Lemma assoc_find_assign {V} (k q : string) (v : V) l :
  assoc_find q (assoc_assign k v l) = if decide (k = q) then Some v else assoc_find q l.
Proof.
  induction l as [|[k' v'] l IH]; simpl.
  - by repeat case_decide.
  - destruct (decide (k' = k)) as [->|Hne]; simpl.
    + by repeat case_decide.
    + rewrite IH. repeat case_decide; congruence.
Qed.

Lemma registerLoader_loop_other patterns loader assocs (q : string) :
  q ∉ patterns →
  assoc_find q (registerLoader_loop patterns loader assocs) = assoc_find q assocs.
Proof.
  revert loader assocs.
  induction patterns as [|p rest IH]; intros loader assocs Hq; simpl; [done|].
  apply not_elem_of_cons in Hq as [Hne Hq].
  rewrite IH by done.
  rewrite assoc_find_assign. by case_decide.
Qed.

Lemma registerLoader_loop_moved_from patterns assocs (q : string) :
  q ∈ patterns →
  assoc_find q (registerLoader_loop patterns None assocs) = Some None.
Proof.
  revert assocs.
  induction patterns as [|p rest IH]; intros assocs Hq; simpl.
  - by apply elem_of_nil in Hq.
  - destruct (decide (q ∈ rest)) as [Hin|Hnin]; [by apply IH|].
    apply elem_of_cons in Hq as [->|?]; [|done].
    rewrite registerLoader_loop_other by done.
    rewrite assoc_find_assign. by case_decide.
Qed.

Lemma subscript_lookup {K} `{Countable K} {V} `{Empty V} (m : gmap K V) (k : K) :
  (subscript m k).1 !! k = Some (subscript m k).2.
Proof.
  unfold subscript. destruct (m !! k) eqn:Hk; simpl; [done|].
  apply lookup_insert_eq.
Qed.

Lemma subscript_keys_of {K} `{Countable K} {V} (m : gmap K (gmap addr V)) (k q : K) :
  match (subscript m k).1 !! q with Some map => (map_to_list map).*1 | None => [] end
  = match m !! q with Some map => (map_to_list map).*1 | None => [] end.
Proof.
  unfold subscript. destruct (m !! k) eqn:Hk; simpl; [done|].
  destruct (decide (k = q)) as [->|Hne].
  - rewrite lookup_insert_eq, Hk. by rewrite map_to_list_empty.
  - by rewrite lookup_insert_ne.
Qed.

(** ** Plugin queries *)

(** C10: for a name under which no plugin is registered, [getPlugin]
    returns the null pointer and [isPluginEnabled] returns [false]; both
    return normally, and [isPluginEnabled] on the null pointer returns
    [false] in every manager. *)
Theorem getPlugin_unregistered (name : string) (s : Manager) :
  lookup_names_ s !! name = None →
  getPlugin name s = None
  ∧ isPluginEnabled name s = Done false
  ∧ ∀ s' : Manager, isPluginEnabled_ptr None s' = Done false.
Proof.
  intros Hnone. unfold isPluginEnabled, getPlugin. rewrite Hnone. by simpl.
Qed.

Lemma getPlugin_unregistered_witness :
  getPlugin "absent" Examples.with_demo = None
  ∧ isPluginEnabled "absent" Examples.with_demo = Done false
  ∧ ∀ s' : Manager, isPluginEnabled_ptr None s' = Done false.
Proof.
  apply (getPlugin_unregistered "absent" Examples.with_demo).
  vm_compute. reflexivity.
Defined.

(** ** Enabling *)

Lemma PluginLoader_enablePlugin_enabled plugin s obj :
  plugin_store s !! plugin = Some obj → isEnabled obj = true →
  PluginLoader_enablePlugin plugin s = Done s.
Proof. intros Hobj Hen. unfold PluginLoader_enablePlugin. by rewrite Hobj, Hen. Qed.

Lemma enablePlugin_enabled plugin s obj :
  plugin_store s !! plugin = Some obj → isEnabled obj = true →
  enablePlugin plugin s = Done s.
Proof. intros Hobj Hen. unfold enablePlugin. by rewrite Hobj, Hen. Qed.

Lemma enablePlugin_sets_enabled plugin s obj :
  plugin_store s !! plugin = Some obj →
  ∃ s1, enablePlugin plugin s = Done s1
        ∧ plugin_store s1 !! plugin = Some (setEnabled true obj).
Proof.
  intros Hobj. unfold enablePlugin. rewrite Hobj.
  destruct (isEnabled obj) eqn:Hen; simpl.
  - exists s. split; [done|]. rewrite Hobj. f_equal.
    destruct obj; simpl in *; by subst.
  - unfold PluginLoader_enablePlugin.
    destruct (getCommands (getDescription obj)); simpl; rewrite Hobj, Hen; simpl;
      eexists; (split; [done|]); apply lookup_insert_eq.
Qed.

(** C7: [enablePlugin] on a plugin that is already enabled changes
    nothing: the manager, the command map, the log and the plugin are
    what they were.  In particular a second [enablePlugin] after a first
    one registers no further command and logs no second "Enabling". *)
Theorem enablePlugin_idempotent (plugin : addr) (s : Manager) (obj : Plugin) :
  plugin_store s !! plugin = Some obj →
  (isEnabled obj = true → enablePlugin plugin s = Done s)
  ∧ ∃ s1, enablePlugin plugin s = Done s1
          ∧ (isEnabled <$> plugin_store s1 !! plugin) = Some true
          ∧ enablePlugin plugin s1 = Done s1
          ∧ ∀ s2, enablePlugin plugin s1 = Done s2 →
                  command_map_ s2 = command_map_ s1 ∧ logged s2 = logged s1
                  ∧ plugin_store s2 = plugin_store s1.
Proof.
  intros Hobj. split.
  - by apply enablePlugin_enabled.
  - destruct (enablePlugin_sets_enabled plugin s obj Hobj) as (s1 & Hrun & Hs1).
    assert (Hagain : enablePlugin plugin s1 = Done s1)
      by (by eapply enablePlugin_enabled).
    exists s1. split_and!; [done | by rewrite Hs1 | done |].
    intros s2 Hs2. rewrite Hagain in Hs2. by inversion Hs2.
Qed.

Lemma enablePlugin_idempotent_witness :
  ∃ s1, enablePlugin 1%positive Examples.with_demo = Done s1
        ∧ enablePlugin 1%positive s1 = Done s1
        ∧ length (command_map_ s1) = 1%nat
        ∧ length (logged s1) = 1%nat.
Proof.
  destruct (enablePlugin_idempotent 1%positive Examples.with_demo
              (Examples.plugin_called "demo")) as (_ & s1 & Hrun & _ & Hagain & _).
  - vm_compute. reflexivity.
  - exists s1. split; [exact Hrun|]. split; [exact Hagain|].
    vm_compute in Hrun. inversion Hrun. split; reflexivity.
Defined.

(** ** Loader registration *)

(** C3: a loader that declares more than one pattern ends up associated
    with none of the patterns after the first: [registerLoader] stores a
    null pointer for each of them, also over a loader registered there
    before. *)
Theorem registerLoader_later_patterns_null
    (loader : PluginLoader) (first q : string) (others : list string) (s : Manager) :
  getPluginFileFilters loader = first :: others →
  q ∈ others →
  assoc_find q (file_associations_ (registerLoader loader s)) = Some None.
Proof.
  intros Hfilters Hq. unfold registerLoader. rewrite Hfilters. simpl.
  by apply registerLoader_loop_moved_from.
Qed.

Lemma registerLoader_later_patterns_null_witness :
  assoc_find ".so"
    (file_associations_ (registerLoader Examples.native_loader Examples.with_so_loader))
  = Some None.
Proof.
  apply (registerLoader_later_patterns_null Examples.native_loader ".dll" ".so" [".so"]).
  - reflexivity.
  - apply list_elem_of_singleton. reflexivity.
Defined.

(** The first pattern does receive the loader, unless the loader lists
    it again. *)
Lemma registerLoader_first_pattern loader first others s :
  getPluginFileFilters loader = first :: others →
  first ∉ others →
  assoc_find first (file_associations_ (registerLoader loader s)) = Some (Some loader).
Proof.
  intros Hfilters Hq. unfold registerLoader. rewrite Hfilters. simpl.
  rewrite registerLoader_loop_other by done.
  rewrite assoc_find_assign. by case_decide.
Qed.

(** ** Default permission sets *)

(** C5: [getDefaultPermissions] returns the role's set when the role is a
    key of [default_permissions_]; for a role that is not, it dereferences
    the past-the-end iterator and returns nothing at all. *)
Theorem getDefaultPermissions_absent_role (role : PermissibleRole) (s : Manager) :
  default_permissions_ s !! role = None →
  getDefaultPermissions role s = Undefined "default_permissions_.find(role) is end()"
  ∧ getDefaultPermissions role s ≠ Done [].
Proof.
  intros Habsent. unfold getDefaultPermissions. by rewrite Habsent.
Qed.

Lemma getDefaultPermissions_absent_role_witness :
  getDefaultPermissions Console Examples.with_operator_defaults
  = Undefined "default_permissions_.find(role) is end()"
  ∧ getDefaultPermissions Console Examples.with_operator_defaults ≠ Done [].
Proof.
  apply (getDefaultPermissions_absent_role Console Examples.with_operator_defaults).
  vm_compute. reflexivity.
Defined.

Lemma getDefaultPermissions_present role s permissions :
  default_permissions_ s !! role = Some permissions →
  getDefaultPermissions role s = Done permissions.
Proof. intros Hrole. unfold getDefaultPermissions. by rewrite Hrole. Qed.

(** ** Subscriptions *)

Lemma getPermissionSubscriptions_unsubscribe permission other permissible s :
  getPermissionSubscriptions other (unsubscribeFromPermission permission permissible s)
  = getPermissionSubscriptions other s.
Proof.
  unfold getPermissionSubscriptions, unsubscribeFromPermission.
  pose proof (subscript_keys_of (permission_subscriptions_ s)
                (lower permission) (lower other)) as Hkeys.
  destruct (subscript (permission_subscriptions_ s) (lower permission)) as [m map].
  simpl in *. exact Hkeys.
Qed.

Lemma getPermissionSubscriptions_subscribe permission permissible s :
  permissible_addr permissible
  ∈ getPermissionSubscriptions permission (subscribeToPermission permission permissible s).
Proof.
  unfold getPermissionSubscriptions, subscribeToPermission.
  destruct (subscript (permission_subscriptions_ s) (lower permission)) as [m map].
  simpl. rewrite lookup_insert_eq.
  apply list_elem_of_fmap. exists (permissible_addr permissible, true). split; [done|].
  apply elem_of_map_to_list. apply lookup_insert_eq.
Qed.

(** C2: [unsubscribeFromPermission] removes nobody: the subscribers of
    every permission are the same before and after the call, so a
    permissible that subscribed and then unsubscribed is still among the
    subscribers. *)
Theorem unsubscribeFromPermission_keeps_subscriber
    (permission : string) (permissible : Permissible) (s : Manager) :
  permissible_addr permissible
  ∈ getPermissionSubscriptions permission
      (unsubscribeFromPermission permission permissible
         (subscribeToPermission permission permissible s)).
Proof.
  rewrite getPermissionSubscriptions_unsubscribe.
  apply getPermissionSubscriptions_subscribe.
Qed.

(** The sibling [unsubscribeFromDefaultPermissions] does remove the
    permissible from its role's subscribers. *)
Lemma unsubscribeFromDefaultPermissions_removes permissible s :
  permissible_addr permissible
  ∉ getDefaultPermissionSubscriptions (getRole permissible)
      (unsubscribeFromDefaultPermissions permissible s).
Proof.
  unfold getDefaultPermissionSubscriptions, unsubscribeFromDefaultPermissions.
  destruct (subscript (default_subscriptions_ s) (getRole permissible)) as [m map].
  simpl. rewrite lookup_insert_eq.
  intros Hin. apply list_elem_of_fmap in Hin as ([a b] & Ha & Hin).
  simpl in Ha. subst a.
  apply elem_of_map_to_list in Hin. by rewrite lookup_delete_eq in Hin.
Qed.

(** An unsubscription for a name without an entry creates an empty entry
    for it; the subscribers reported for every name stay the same. *)
Lemma unsubscribeFromPermission_no_subscribers permission permissible s :
  permission_subscriptions_ s !! lower permission = None →
  permission_subscriptions_ (unsubscribeFromPermission permission permissible s)
  = <[lower permission := ∅]> (permission_subscriptions_ s).
Proof.
  intros Hnone. unfold unsubscribeFromPermission, subscript. by rewrite Hnone.
Qed.

(** ** The permission table *)

Lemma fold_left_invariant {A B} (P : A → Prop) (f : A → B → A) (l : list B) (a : A) :
  (∀ a' b, P a' → P (f a' b)) → P a → P (fold_left f l a).
Proof.
  intros Hstep. revert a.
  induction l as [|b l IH]; intros a Ha; simpl; [done|].
  apply IH. by apply Hstep.
Qed.

Lemma updatePermissibles_same_nodes role s0 s :
  same_nodes s0 s → same_nodes s0 (updatePermissibles role s).
Proof.
  intros Hs. unfold updatePermissibles.
  apply fold_left_invariant; [|done].
  intros s' p Hs'. exact Hs'.
Qed.

Lemma calculatePermissionDefault_step_same_nodes permission policy update s0 s role :
  same_nodes s0 s →
  same_nodes s0 (calculatePermissionDefault_step permission policy update s role).
Proof.
  intros Hs. unfold calculatePermissionDefault_step.
  destruct (policy role); simpl; [|done].
  destruct update; [apply updatePermissibles_same_nodes|]; exact Hs.
Qed.

Lemma calculatePermissionDefault_same_nodes permission update s obj :
  permission_store s !! permission = Some obj →
  ∃ s', calculatePermissionDefault permission update s = Done s' ∧ same_nodes s s'.
Proof.
  intros Hobj. unfold calculatePermissionDefault. rewrite Hobj.
  eexists. split; [done|].
  apply fold_left_invariant; [|done].
  intros s' role Hs'. by apply calculatePermissionDefault_step_same_nodes.
Qed.

Section Permissions.

Variable SimplePermission_default : PermissibleRole → bool.

Lemma addPermission_present name update s it :
  permissions_ s !! lower name = Some it →
  addPermission SimplePermission_default name update s
  = Done (it, log_error ("The permission " +:+ lower name +:+ " is already defined.") s).
Proof. intros Hit. unfold addPermission. by rewrite Hit. Qed.

Lemma addPermission_registers name update s :
  ∃ it s1, addPermission SimplePermission_default name update s = Done (it, s1)
           ∧ permissions_ s1 !! lower name = Some it.
Proof.
  unfold addPermission.
  destruct (permissions_ s !! lower name) as [it|] eqn:Hit.
  - exists it. eexists. split; [done|]. exact Hit.
  - set (permission := fresh (dom (permission_store s))).
    set (s0 := set_permissions_ _ _).
    destruct (calculatePermissionDefault_same_nodes permission update s0
                (SimplePermission SimplePermission_default (lower name)))
      as (s1 & Hrun & Hperms & _).
    { apply lookup_insert_eq. }
    exists permission, s1. rewrite Hrun. split; [done|].
    rewrite Hperms. apply lookup_insert_eq.
Qed.

(** What the first [addPermission] of a name hands back: the node that
    the table holds for the name afterwards; a node built by this call,
    at an address that was unused, when the name was not in the table,
    and the node that was there when it was. *)
Lemma addPermission_node name update s :
  ∃ it s1,
    addPermission SimplePermission_default name update s = Done (it, s1)
    ∧ getPermission name s1 = Some it
    ∧ (getPermission name s = None →
       permission_store s !! it = None
       ∧ permission_store s1 !! it
         = Some (SimplePermission SimplePermission_default (lower name)))
    ∧ (∀ it0, getPermission name s = Some it0 →
       it = it0 ∧ permission_store s1 = permission_store s).
Proof.
  unfold addPermission, getPermission.
  destruct (permissions_ s !! lower name) as [it|] eqn:Hit.
  - exists it. eexists. split; [done|]. simpl. rewrite Hit.
    split_and!; [done|done|]. intros it0 [= <-]. done.
  - set (permission := fresh (dom (permission_store s))).
    set (s0 := set_permissions_ _ _).
    destruct (calculatePermissionDefault_same_nodes permission update s0
                (SimplePermission SimplePermission_default (lower name)))
      as (s1 & Hrun & Hperms & Hstore & _).
    { apply lookup_insert_eq. }
    exists permission, s1. rewrite Hrun. split; [done|].
    rewrite Hperms, Hstore. subst s0. simpl. rewrite !lookup_insert_eq.
    split_and!; [done| |done].
    intros _. split; [|done]. subst permission. apply not_elem_of_dom, is_fresh.
Qed.

(** C8: the first [addPermission] of a name returns the node that the
    table then holds for the name, built by that call when the name was
    new.  A second [addPermission] of the same name logs that the
    permission is already defined and returns that same node; apart from
    the log line the manager is what it was, so the table, the node and
    its policy, the default sets and the record of notified permissibles
    are untouched. *)
Theorem addPermission_twice (name : string) (update update' : bool) (s : Manager) :
  ∃ it s1,
    addPermission SimplePermission_default name update s = Done (it, s1)
    ∧ getPermission name s1 = Some it
    ∧ (getPermission name s = None →
       permission_store s !! it = None
       ∧ permission_store s1 !! it
         = Some (SimplePermission SimplePermission_default (lower name)))
    ∧ (∀ it0, getPermission name s = Some it0 →
       it = it0 ∧ permission_store s1 = permission_store s)
    ∧ addPermission SimplePermission_default name update' s1
      = Done (it, log_error ("The permission " +:+ lower name +:+ " is already defined.") s1)
    ∧ ∀ it' s2, addPermission SimplePermission_default name update' s1 = Done (it', s2) →
        it' = it
        ∧ getPermission name s2 = Some it
        ∧ permissions_ s2 = permissions_ s1
        ∧ permission_store s2 = permission_store s1
        ∧ default_permissions_ s2 = default_permissions_ s1
        ∧ recalculated s2 = recalculated s1
        ∧ logged s2
          = (logged s1
             ++ [{| log_level := Error;
                    log_message :=
                      "The permission " +:+ lower name +:+ " is already defined." |}])%list.
Proof.
  destruct (addPermission_node name update s)
    as (it & s1 & Hrun & Hget & Hnew & Hold).
  exists it, s1. split; [done|]. split; [done|]. split; [done|]. split; [done|].
  assert (Hit : permissions_ s1 !! lower name = Some it).
  { unfold getPermission in Hget. by destruct (permissions_ s1 !! lower name). }
  pose proof (addPermission_present name update' s1 it Hit) as Hagain.
  split; [done|].
  intros it' s2 Hs2. rewrite Hagain in Hs2. injection Hs2 as <- <-.
  split_and!; try done.
Qed.

Lemma char_eq_ignore_case_tolower c d :
  char_eq_ignore_case c d → tolower c = tolower d.
Proof.
  assert (Hshift : ∀ u v, is_upper u = true → nat_of_ascii v = (nat_of_ascii u + 32)%nat →
                          tolower u = tolower v).
  { intros u v Hu Hv. unfold tolower. fold (is_upper u). rewrite Hu, <- Hv.
    apply andb_true_iff in Hu as [H1 H2]. apply Nat.leb_le in H1, H2.
    replace ((nat_of_ascii v <=? 90)%nat) with false
      by (symmetry; apply Nat.leb_gt; lia).
    rewrite andb_false_r. apply ascii_nat_embedding. }
  intros [->|[[Hc Hd]|[Hd Hc]]]; [done| |symmetry]; by apply Hshift.
Qed.

Lemma eq_ignore_case_lower a b : eq_ignore_case a b → lower a = lower b.
Proof.
  induction 1 as [|c d s t Hcd _ IH]; simpl; [done|].
  f_equal; [by apply char_eq_ignore_case_tolower | exact IH].
Qed.

(** C9: after [addPermission name], [getPermission] returns the node of
    that call for [name] and for every name that equals it up to ASCII
    case. *)
Theorem getPermission_ignores_case (name other : string) (update : bool) (s : Manager) :
  eq_ignore_case other name →
  ∃ it s1,
    addPermission SimplePermission_default name update s = Done (it, s1)
    ∧ getPermission name s1 = Some it
    ∧ getPermission other s1 = Some it.
Proof.
  intros Hcase.
  destruct (addPermission_registers name update s) as (it & s1 & Hrun & Hit).
  exists it, s1. split; [done|].
  unfold getPermission. rewrite (eq_ignore_case_lower _ _ Hcase), Hit. done.
Qed.

End Permissions.

Lemma getPermission_ignores_case_witness :
  ∃ it s1,
    addPermission Examples.deny_all "Foo.Bar" true Examples.with_operator_defaults
      = Done (it, s1)
    ∧ getPermission "Foo.Bar" s1 = Some it
    ∧ getPermission "foo.bar" s1 = Some it.
Proof.
  apply (getPermission_ignores_case Examples.deny_all "Foo.Bar" "foo.bar" true
           Examples.with_operator_defaults).
  repeat (constructor;
          [first [ left; reflexivity
                 | right; left; split; reflexivity
                 | right; right; split; reflexivity ] |]).
  constructor.
Defined.

(** ** Removing a permission *)


(** On any manager, reached or not, [removePermission] takes the node out
    of the node table and destroys it, notifies nobody, and leaves every
    role's default set as it was: a set that held the node would still
    hold its address. *)
Theorem removePermission_leaves_default_sets
    (name : string) (s : Manager) (it : addr) (role : PermissibleRole)
    (permissions : list addr) :
  permissions_ s !! lower name = Some it →
  default_permissions_ s !! role = Some permissions →
  it ∈ permissions →
  let s' := removePermission name s in
  getPermission name s' = None
  ∧ permission_store s' !! it = None
  ∧ recalculated s' = recalculated s
  ∧ ∃ permissions', getDefaultPermissions role s' = Done permissions' ∧ it ∈ permissions'.
Proof.
  intros Hit Hrole Hin s'. subst s'.
  unfold getPermission, getDefaultPermissions, removePermission.
  rewrite Hit. simpl. rewrite !lookup_delete_eq, Hrole.
  split_and!; try done. by exists permissions.
Qed.

Lemma removePermission_leaves_default_sets_witness :
  let s' := removePermission "x" Examples.with_x in
  getPermission "x" s' = None
  ∧ permission_store s' !! 1%positive = None
  ∧ recalculated s' = recalculated Examples.with_x
  ∧ ∃ permissions', getDefaultPermissions Operator s' = Done permissions'
                    ∧ 1%positive ∈ permissions'.
Proof.
  apply (removePermission_leaves_default_sets "x" Examples.with_x 1%positive Operator
           [1%positive]).
  - vm_compute. reflexivity.
  - vm_compute. reflexivity.
  - apply list_elem_of_singleton. reflexivity.
Defined.

(** The sibling [recalculatePermissionDefaults] does take a node out of
    the default sets: a node whose policy grants no role is in none of
    them afterwards. *)
Lemma recalculatePermissionDefaults_removes permission s obj :
  permission_store s !! permission = Some obj →
  (∀ role, perm_default obj role = false) →
  ∃ s', recalculatePermissionDefaults permission s = Done s'
        ∧ ∀ role permissions,
            default_permissions_ s' !! role = Some permissions → permission ∉ permissions.
Proof.
  intros Hobj Hdeny. unfold recalculatePermissionDefaults, calculatePermissionDefault.
  rewrite Hobj. simpl. rewrite Hobj.
  eexists. split; [done|].
  intros role permissions.
  match goal with
  | |- default_permissions_ (fold_left ?f ?l ?s1) !! _ = _ → _ =>
      assert (Hsame : default_permissions_ (fold_left f l s1) = default_permissions_ s1)
  end.
  { apply fold_left_invariant; [|done].
    intros s' r Hs'. unfold calculatePermissionDefault_step. by rewrite Hdeny. }
  rewrite Hsame. simpl. rewrite lookup_fmap.
  destruct (default_permissions_ s !! role) as [l|]; simpl; [|done].
  intros [= <-] Hin. apply list_elem_of_filter in Hin as [Hne _]. done.
Qed.

(** ** Loading *)

Section Loading.

Variable regex_search : string → string → option bool.
Variable fs : FileSystem.

(** The result of [loadPlugin] on a manager whose associations are usable
    for the file, in terms of what the loaders make of it. *)
Lemma loadPlugin_loop_usable assocs file s :
  usable_for regex_search file assocs = true →
  loadPlugin_loop regex_search assocs file s
  = match produced regex_search assocs file with
    | None => Done (None, s)
    | Some plugin =>
        let plugin_ptr := fresh (dom (plugin_store s)) in
        let name := getName (getDescription plugin) in
        if negb (ValidName name) then
          Done (None,
                log_error ("Could not load plugin from '" +:+ file
                           +:+ "': Plugin name contains invalid characters.") s)
        else
          Done (Some plugin_ptr,
                set_plugins_ (plugins_ s ++ [plugin_ptr])
                  (set_lookup_names_ (<[name := plugin_ptr]> (lookup_names_ s))
                     (set_plugin_store (<[plugin_ptr := plugin]> (plugin_store s)) s)))
    end.
Proof.
  induction assocs as [|[pattern loader] rest IH]; simpl; [done|].
  intros Husable. apply andb_true_iff in Husable as [Hhere Hrest].
  destruct (regex_search file pattern) as [[|]|]; [| |done].
  - destruct loader as [l|]; [|done].
    destruct (loader_loadPlugin l file); [done|]. by apply IH.
  - destruct loader; by apply IH.
Qed.

(** A load that fails leaves the registry as it was; a load that works
    puts the new object at an unused address and the address at the end
    of [plugins_]. *)
Lemma loadPlugin_usable file s :
  usable_for regex_search file (file_associations_ s) = true →
  ∃ r s', loadPlugin regex_search fs file s = Done (r, s')
    ∧ file_associations_ s' = file_associations_ s
    ∧ match produced regex_search (file_associations_ s) file with
      | Some plugin =>
          if ValidName (getName (getDescription plugin)) then
            ∃ a, r = Some a
                 ∧ plugin_store s !! a = None
                 ∧ plugin_store s' = <[a := plugin]> (plugin_store s)
                 ∧ plugins_ s' = plugins_ s ++ [a]
                 ∧ lookup_names_ s'
                   = <[getName (getDescription plugin) := a]> (lookup_names_ s)
          else r = None ∧ plugin_store s' = plugin_store s ∧ plugins_ s' = plugins_ s
               ∧ lookup_names_ s' = lookup_names_ s
      | None => r = None ∧ plugin_store s' = plugin_store s ∧ plugins_ s' = plugins_ s
                ∧ lookup_names_ s' = lookup_names_ s
      end.
Proof.
  intros Husable. unfold loadPlugin.
  set (s1 := if negb (fs_exists fs file) then _ else s).
  assert (Hs1 : file_associations_ s1 = file_associations_ s
                ∧ plugin_store s1 = plugin_store s ∧ plugins_ s1 = plugins_ s
                ∧ lookup_names_ s1 = lookup_names_ s)
    by (subst s1; by destruct (negb (fs_exists fs file))).
  destruct Hs1 as (Hfa & Hstore & Hplugins & Hnames).
  rewrite Hfa, loadPlugin_loop_usable by done.
  destruct (produced regex_search (file_associations_ s) file) as [plugin|].
  - simpl. destruct (ValidName (getName (getDescription plugin))); simpl.
    + eexists _, _. split; [done|]. simpl. split; [done|].
      eexists. split; [done|]. rewrite Hstore, Hplugins, Hnames. split_and!; try done.
      apply not_elem_of_dom. apply is_fresh.
    + eexists _, _. split; [done|]. by simpl.
  - eexists _, _. by split.
Qed.

(** The end of the two cases in which a candidate is passed over. *)
Ltac skipped_candidate Hmono :=
  split_and!; try done; [congruence|];
  let x := fresh "x" in let p := fresh "p" in let Hx := fresh "Hx" in
  intros x p Hx; apply Hmono; congruence.

Lemma loadPlugins_loop_spec entries : ∀ loaded_plugins s,
  forallb (fun file => usable_for regex_search file (file_associations_ s))
          (omap (entry_file fs) entries) = true →
  ∃ new s',
    loadPlugins_loop regex_search fs entries loaded_plugins s
      = Done (loaded_plugins ++ new, s')
    ∧ Forall2 (loaded_from regex_search (file_associations_ s) s') new
        (filter (fun file => loads regex_search (file_associations_ s) file = true)
                (omap (entry_file fs) entries))
    ∧ plugins_ s' = plugins_ s ++ new
    ∧ file_associations_ s' = file_associations_ s
    ∧ ∀ a plugin, plugin_store s !! a = Some plugin → plugin_store s' !! a = Some plugin.
Proof.
  induction entries as [|entry rest IH]; intros loaded_plugins s Husable; simpl.
  - exists [], s. rewrite !app_nil_r. split_and!; done.
  - simpl in Husable. destruct (entry_file fs entry) as [file|]; [|by apply IH].
    simpl in Husable. apply andb_true_iff in Husable as [Hfile Hrest].
    destruct (loadPlugin_usable file s Hfile) as (r & s1 & Hrun & Hfa & Hcase).
    rewrite Hrun. simpl. rewrite filter_cons.
    destruct (produced regex_search (file_associations_ s) file) as [plugin|] eqn:Hprod;
      [destruct (ValidName (getName (getDescription plugin))) eqn:Hvalid|].
    + assert (Hloads : loads regex_search (file_associations_ s) file = true)
        by (unfold loads; by rewrite Hprod).
      destruct Hcase as (a & -> & Hfresh & Hstore & Hplugins & _).
      rewrite <- Hfa in Hrest.
      destruct (IH (loaded_plugins ++ [a]) s1 Hrest)
        as (new & s' & Hloop & Hall & Hpl & Hfa' & Hmono).
      exists (a :: new), s'. rewrite Hloop, <- app_assoc. simpl.
      rewrite Hfa in Hall, Hfa'. rewrite decide_True by done.
      split_and!; try done.
      * constructor; [|done]. exists plugin. split_and!; try done.
        apply Hmono. rewrite Hstore. apply lookup_insert_eq.
      * by rewrite Hpl, Hplugins, <- app_assoc.
      * intros x p Hx. apply Hmono. rewrite Hstore.
        rewrite lookup_insert_ne; [done|]. intros ->. congruence.
    + assert (Hloads : loads regex_search (file_associations_ s) file ≠ true)
        by (unfold loads; by rewrite Hprod, Hvalid).
      destruct Hcase as (-> & Hstore & Hplugins & _).
      rewrite <- Hfa in Hrest.
      destruct (IH loaded_plugins s1 Hrest) as (new & s' & Hloop & Hall & Hpl & Hfa' & Hmono).
      exists new, s'. rewrite Hloop. rewrite Hfa in Hall, Hfa'.
      rewrite decide_False by done. skipped_candidate Hmono.
    + assert (Hloads : loads regex_search (file_associations_ s) file ≠ true)
        by (unfold loads; by rewrite Hprod).
      destruct Hcase as (-> & Hstore & Hplugins & _).
      rewrite <- Hfa in Hrest.
      destruct (IH loaded_plugins s1 Hrest) as (new & s' & Hloop & Hall & Hpl & Hfa' & Hmono).
      exists new, s'. rewrite Hloop. rewrite Hfa in Hall, Hfa'.
      rewrite decide_False by done. skipped_candidate Hmono.
Qed.

(** On an existing directory, with associations that are usable for
    its candidates, [loadPlugins] returns, in the order of the scan, one
    pointer for each candidate that loads and nothing for the others: the
    pointer leads to the plugin built from that candidate, and a
    candidate that fails neither stops the scan nor changes what is
    loaded from the rest. *)
Theorem loadPlugins_isolates_failures (directory : string) (s : Manager) :
  fs_is_directory fs directory = true →
  forallb (fun file => usable_for regex_search file (file_associations_ s))
          (candidates fs directory) = true →
  ∃ loaded s',
    loadPlugins regex_search fs directory s = Done (loaded, s')
    ∧ Forall2 (loaded_from regex_search (file_associations_ s) s') loaded
        (filter (fun file => loads regex_search (file_associations_ s) file = true)
                (candidates fs directory))
    ∧ plugins_ s' = plugins_ s ++ loaded.
Proof.
  intros Hdir Husable. unfold loadPlugins.
  assert (Hexists : fs_exists fs directory = true).
  { unfold fs_is_directory, fs_exists in *. by destruct (fs_status fs directory). }
  rewrite Hexists, Hdir. simpl.
  destruct (loadPlugins_loop_spec (fs_entries fs directory) [] s Husable)
    as (new & s' & Hloop & Hall & Hpl & _ & _).
  exists new, s'. by rewrite Hloop.
Qed.

(** The result of [loadPlugin_loop] in terms of what the search through
    the associations comes to. *)
Lemma loadPlugin_loop_first_built assocs file s :
  loadPlugin_loop regex_search assocs file s
  = match first_built regex_search assocs file with
    | Undefined why => Undefined why
    | Done None => Done (None, s)
    | Done (Some plugin) =>
        let plugin_ptr := fresh (dom (plugin_store s)) in
        let name := getName (getDescription plugin) in
        if negb (ValidName name) then
          Done (None,
                log_error ("Could not load plugin from '" +:+ file
                           +:+ "': Plugin name contains invalid characters.") s)
        else
          Done (Some plugin_ptr,
                set_plugins_ (plugins_ s ++ [plugin_ptr])
                  (set_lookup_names_ (<[name := plugin_ptr]> (lookup_names_ s))
                     (set_plugin_store (<[plugin_ptr := plugin]> (plugin_store s)) s)))
    end.
Proof.
  induction assocs as [|[pattern loader] rest IH]; simpl; [done|].
  destruct (regex_search file pattern) as [[|]|]; [|exact IH|done].
  destruct loader as [l|]; [|done].
  destruct (loader_loadPlugin l file); [done|exact IH].
Qed.

(** A load for which the search builds a plugin with a valid name: the
    object goes to an unused address, the address to the end of
    [plugins_] and under the name in [lookup_names_]. *)
Lemma loadPlugin_first_built file s plugin :
  first_built regex_search (file_associations_ s) file = Done (Some plugin) →
  ValidName (getName (getDescription plugin)) = true →
  ∃ a s', loadPlugin regex_search fs file s = Done (Some a, s')
          ∧ plugin_store s !! a = None
          ∧ plugin_store s' = <[a := plugin]> (plugin_store s)
          ∧ plugins_ s' = plugins_ s ++ [a]
          ∧ lookup_names_ s' = <[getName (getDescription plugin) := a]> (lookup_names_ s).
Proof.
  intros Hbuilt Hvalid. unfold loadPlugin.
  set (s1 := if negb (fs_exists fs file) then _ else s).
  assert (Hs1 : file_associations_ s1 = file_associations_ s
                ∧ plugin_store s1 = plugin_store s ∧ plugins_ s1 = plugins_ s
                ∧ lookup_names_ s1 = lookup_names_ s)
    by (subst s1; by destruct (negb (fs_exists fs file))).
  destruct Hs1 as (Hfa & Hstore & Hplugins & Hnames).
  rewrite loadPlugin_loop_first_built, Hfa, Hbuilt. simpl. rewrite Hvalid. simpl.
  eexists _, _. split; [done|]. simpl. rewrite Hstore, Hplugins, Hnames.
  split_and!; try done. apply not_elem_of_dom, is_fresh.
Qed.

(** C1: when a plugin called [name] is registered and the search through
    the associations builds another plugin called [name] from [file],
    [loadPlugin] accepts it: it returns the new object, the name now
    leads to the new object, and the original stays, unchanged, in
    [plugins_], which holds the new object as well. *)
Theorem loadPlugin_same_name_accepted
    (file name : string) (s : Manager) (original : addr) (obj plugin : Plugin) :
  getPlugin name s = Some original →
  original ∈ plugins_ s →
  plugin_store s !! original = Some obj →
  getName (getDescription obj) = name →
  first_built regex_search (file_associations_ s) file = Done (Some plugin) →
  getName (getDescription plugin) = name →
  ValidName name = true →
  ∃ added s',
    loadPlugin regex_search fs file s = Done (Some added, s')
    ∧ added ≠ original
    ∧ getPlugin name s' = Some added
    ∧ plugins_ s' = plugins_ s ++ [added]
    ∧ plugin_store s' !! original = Some obj
    ∧ plugin_store s' !! added = Some plugin
    ∧ original ∈ plugins_named name s'
    ∧ added ∈ plugins_named name s'.
Proof.
  intros Hget Hin Hobj Hname Hbuilt Hnew Hvalid.
  rewrite <- Hnew in Hvalid.
  destruct (loadPlugin_first_built file s plugin Hbuilt Hvalid)
    as (added & s' & Hrun & Hfresh & Hstore & Hplugins & Hnames).
  rewrite Hnew in Hnames.
  assert (Hne : added ≠ original) by (intros ->; congruence).
  assert (Hobj' : plugin_store s' !! original = Some obj)
    by (rewrite Hstore; by rewrite lookup_insert_ne).
  assert (Hadded : plugin_store s' !! added = Some plugin)
    by (rewrite Hstore; apply lookup_insert_eq).
  exists added, s'. split_and!; try done.
  - unfold getPlugin. by rewrite Hnames, lookup_insert_eq.
  - apply list_elem_of_filter. split.
    + unfold plugin_name_at. by rewrite Hobj', Hname.
    + rewrite Hplugins. apply elem_of_app. by left.
  - apply list_elem_of_filter. split.
    + unfold plugin_name_at. by rewrite Hadded, Hnew.
    + rewrite Hplugins. apply elem_of_app. right. by apply list_elem_of_singleton.
Qed.

End Loading.

(** The example managers are states the code reaches. *)
Example with_demo_reached :
  loadPlugin Examples.suffix_search Examples.disk "plugins/a.so" Examples.with_so_loader
  = Done (Some 1%positive, Examples.with_demo).
Proof. vm_compute. reflexivity. Qed.

Example with_x_reached :
  addPermission Examples.grant_operator "x" true Examples.with_operator_defaults
  = Done (1%positive, Examples.with_x).
Proof. vm_compute. reflexivity. Qed.

(** A file that matches a pattern left with a null loader stops
    [loadPlugin] for good. *)
Example loadPlugin_null_loader :
  loadPlugin Examples.suffix_search Examples.disk "plugins/a.so"
    (registerLoader Examples.native_loader new_manager)
  = Undefined "loader->loadPlugin on a null loader".
Proof. vm_compute. reflexivity. Qed.

Lemma loadPlugins_isolates_failures_witness :
  ∃ loaded s',
    loadPlugins Examples.suffix_search Examples.disk "plugins" Examples.with_so_loader
      = Done (loaded, s')
    ∧ length loaded = 1%nat
    ∧ length (fs_entries Examples.disk "plugins") = 4%nat.
Proof.
  destruct (loadPlugins_isolates_failures Examples.suffix_search Examples.disk "plugins"
              Examples.with_so_loader) as (loaded & s' & Hrun & Hall & _).
  - vm_compute. reflexivity.
  - vm_compute. reflexivity.
  - exists loaded, s'. split; [exact Hrun|]. split; [|reflexivity].
    apply Forall2_length in Hall. rewrite Hall. vm_compute. reflexivity.
Defined.

Lemma loadPlugin_same_name_accepted_witness :
  usable_for Examples.suffix_search "mods/a.py" (file_associations_ Examples.with_script)
    = false
  ∧ ∃ added s',
      loadPlugin Examples.suffix_search Examples.mods_disk "mods/a.py" Examples.with_script
        = Done (Some added, s')
      ∧ added ≠ 1%positive
      ∧ getPlugin "script" s' = Some added
      ∧ plugins_ s' = [1%positive; added].
Proof.
  split; [vm_compute; reflexivity|].
  destruct (loadPlugin_same_name_accepted Examples.suffix_search Examples.mods_disk
              "mods/a.py" "script" Examples.with_script 1%positive
              (Examples.plugin_called "script") (Examples.plugin_called "script"))
    as (added & s' & Hrun & Hne & Hget & Hplugins & _).
  - vm_compute. reflexivity.
  - apply list_elem_of_singleton. reflexivity.
  - vm_compute. reflexivity.
  - reflexivity.
  - vm_compute. reflexivity.
  - reflexivity.
  - vm_compute. reflexivity.
  - exists added, s'. split_and!; done.
Defined.

(** C1, as the specification has it, fails on the manager that holds
    [demo] at address 1 when [plugins/b.so], from which the loader builds
    a second [demo], is loaded: the load returns the new object at
    address 2, and two objects called [demo] are owned. *)
Lemma loadPlugin_duplicate_not_rejected :
  getPlugin "demo" Examples.with_demo = Some 1%positive
  ∧ plugins_named "demo" Examples.with_demo = [1%positive]
  ∧ produced Examples.suffix_search (file_associations_ Examples.with_demo) "plugins/b.so"
    = Some (Examples.plugin_called "demo")
  ∧ ¬ rejected_as_duplicate
        (loadPlugin Examples.suffix_search Examples.disk "plugins/b.so" Examples.with_demo)
        "demo" 1%positive
  ∧ ∃ s', loadPlugin Examples.suffix_search Examples.disk "plugins/b.so" Examples.with_demo
          = Done (Some 2%positive, s')
          ∧ plugins_named "demo" s' = [1%positive; 2%positive]
          ∧ getPlugin "demo" s' = Some 2%positive.
Proof.
  split_and!.
  - vm_compute. reflexivity.
  - vm_compute. reflexivity.
  - vm_compute. reflexivity.
  - intros (s' & Hrun & _). vm_compute in Hrun. discriminate Hrun.
  - eexists. split_and!.
    + vm_compute. reflexivity.
    + vm_compute. reflexivity.
    + vm_compute. reflexivity.
Qed.

(** * Further properties of the manager *)

(** ** Loading: every outcome *)

Section LoadingOutcomes.

Variable regex_search : string → string → option bool.
Variable fs : FileSystem.

(** What a returning [loadPlugin_loop] can have done: nothing but write a
    line to the log, or register one object at an unused address. *)
Lemma loadPlugin_loop_done assocs file s r s' :
  loadPlugin_loop regex_search assocs file s = Done (r, s') →
  outside_plugins_same s s'
  ∧ ((r = None ∧ plugins_ s' = plugins_ s ∧ lookup_names_ s' = lookup_names_ s
      ∧ plugin_store s' = plugin_store s)
     ∨ (∃ a plugin,
          r = Some a ∧ plugin_store s !! a = None
          ∧ ValidName (getName (getDescription plugin)) = true
          ∧ plugins_ s' = plugins_ s ++ [a]
          ∧ lookup_names_ s' = <[getName (getDescription plugin) := a]> (lookup_names_ s)
          ∧ plugin_store s' = <[a := plugin]> (plugin_store s)
          ∧ logged s' = logged s)).
Proof.
  induction assocs as [|[pattern loader] rest IH]; simpl.
  - intros [= <- <-]. split; [by repeat split|]. left. by repeat split.
  - destruct (regex_search file pattern) as [[|]|]; [| exact IH | done].
    destruct loader as [l|]; [|done].
    destruct (loader_loadPlugin l file) as [plugin|]; [|exact IH].
    destruct (ValidName (getName (getDescription plugin))) eqn:Hvalid; simpl;
      intros [= <- <-].
    + split; [by repeat split|]. right.
      exists (fresh (dom (plugin_store s))), plugin. split_and!; try done.
      apply not_elem_of_dom, is_fresh.
    + split; [by repeat split|]. left. by repeat split.
Qed.

Lemma loadPlugin_done file s r s' :
  loadPlugin regex_search fs file s = Done (r, s') →
  outside_plugins_same s s'
  ∧ ((r = None ∧ plugins_ s' = plugins_ s ∧ lookup_names_ s' = lookup_names_ s
      ∧ plugin_store s' = plugin_store s)
     ∨ (∃ a plugin,
          r = Some a ∧ plugin_store s !! a = None
          ∧ ValidName (getName (getDescription plugin)) = true
          ∧ plugins_ s' = plugins_ s ++ [a]
          ∧ lookup_names_ s' = <[getName (getDescription plugin) := a]> (lookup_names_ s)
          ∧ plugin_store s' = <[a := plugin]> (plugin_store s))).
Proof.
  unfold loadPlugin. intros Hrun.
  apply loadPlugin_loop_done in Hrun as [Hout Hcase].
  destruct (negb (fs_exists fs file)); simpl in *.
  - split; [exact Hout|].
    destruct Hcase as [?|(a & plugin & ? & ? & ? & ? & ? & ? & _)]; [by left|].
    right. by exists a, plugin.
  - split; [exact Hout|].
    destruct Hcase as [?|(a & plugin & ? & ? & ? & ? & ? & ? & _)]; [by left|].
    right. by exists a, plugin.
Qed.

Lemma loadPlugin_consistent (file : string) (s s' : Manager) (r : option addr) :
  registry_consistent s →
  loadPlugin regex_search fs file s = Done (r, s') →
  registry_consistent s'
  ∧ outside_plugins_same s s'
  ∧ (∀ a obj, plugin_store s !! a = Some obj → plugin_store s' !! a = Some obj)
  ∧ (∀ a, r = Some a → (a ∉ plugins_ s) ∧ a ∈ plugins_ s').
Proof.
  intros (Hnodup & Halive & Hnames) Hrun.
  apply loadPlugin_done in Hrun as [Hout Hcase].
  destruct Hcase as [(-> & Hpl & Hln & Hst)|(a & plugin & -> & Hfresh & Hvalid & Hpl & Hln & Hst)].
  - split_and!; try done.
    + unfold registry_consistent, plugin_name_at. by rewrite Hpl, Hln, Hst.
    + intros a obj. by rewrite Hst.
  - assert (Hnotin : a ∉ plugins_ s).
    { intros Hin. destruct (Halive a Hin) as [obj Hobj]. congruence. }
    split_and!; try done.
    + unfold registry_consistent, plugin_name_at. rewrite Hpl, Hln, Hst. split_and!.
      * apply NoDup_app. split_and!; [done| |apply NoDup_singleton].
        intros x Hx ->%list_elem_of_singleton. done.
      * intros x Hx. apply elem_of_app in Hx as [Hx|Hx].
        -- rewrite lookup_insert_ne by (intros ->; done). by apply Halive.
        -- apply list_elem_of_singleton in Hx as ->. rewrite lookup_insert_eq. by eexists.
      * intros name x Hx.
        destruct (decide (getName (getDescription plugin) = name)) as [<-|Hne].
        -- rewrite lookup_insert_eq in Hx. injection Hx as <-.
           rewrite lookup_insert_eq. split; [|done].
           apply elem_of_app. right. by apply list_elem_of_singleton.
        -- rewrite lookup_insert_ne in Hx by done.
           destruct (Hnames name x Hx) as [Hin Hname].
           rewrite lookup_insert_ne by (intros ->; done).
           split; [|exact Hname]. apply elem_of_app. by left.
    + intros x obj Hx. rewrite Hst, lookup_insert_ne; [done|]. intros ->. congruence.
    + intros x [= <-]. split; [done|]. rewrite Hpl. apply elem_of_app. right.
      by apply list_elem_of_singleton.
Qed.

(** X1: [loadPlugin], whatever it returns, keeps the plugin registry
    consistent, leaves every object that was there as it was, and touches
    neither the loader associations, nor the permission side, nor the
    command map. *)
Theorem loadPlugin_keeps_consistency (file : string) (s s' : Manager) (r : option addr) :
  registry_consistent s →
  loadPlugin regex_search fs file s = Done (r, s') →
  registry_consistent s'
  ∧ outside_plugins_same s s'
  ∧ (∀ a obj, plugin_store s !! a = Some obj → plugin_store s' !! a = Some obj)
  ∧ (∀ a, r = Some a → (a ∉ plugins_ s) ∧ a ∈ plugins_ s').
Proof. apply loadPlugin_consistent. Qed.

End LoadingOutcomes.

Lemma registry_consistent_empty s :
  plugins_ s = [] → lookup_names_ s = ∅ → registry_consistent s.
Proof.
  intros Hpl Hln. unfold registry_consistent. rewrite Hpl, Hln. split_and!.
  - apply NoDup_nil_2.
  - intros a Ha. by apply elem_of_nil in Ha.
  - intros name a Ha. by rewrite lookup_empty in Ha.
Qed.

Lemma with_demo_consistent : registry_consistent Examples.with_demo.
Proof.
  split_and!.
  - apply NoDup_singleton.
  - intros a ->%list_elem_of_singleton. by eexists.
  - intros name a Ha. simpl in Ha.
    apply lookup_singleton_Some in Ha as [<- <-].
    split; [by apply list_elem_of_singleton | reflexivity].
Qed.

Lemma loadPlugin_keeps_consistency_witness :
  registry_consistent Examples.with_demo
  ∧ outside_plugins_same Examples.with_so_loader Examples.with_demo
  ∧ (∀ a obj, plugin_store Examples.with_so_loader !! a = Some obj →
              plugin_store Examples.with_demo !! a = Some obj)
  ∧ (∀ a, Some 1%positive = Some a →
          (a ∉ plugins_ Examples.with_so_loader) ∧ a ∈ plugins_ Examples.with_demo).
Proof.
  apply (loadPlugin_keeps_consistency Examples.suffix_search Examples.disk
           "plugins/a.so" Examples.with_so_loader Examples.with_demo (Some 1%positive)).
  - apply registry_consistent_empty; reflexivity.
  - vm_compute. reflexivity.
Defined.

Section LoadingCases.

Variable regex_search : string → string → option bool.
Variable fs : FileSystem.

(** X2: when the search through the associations builds a plugin whose
    name fails the name check, the plugin is refused on the spot: the
    null pointer comes back, the registry is untouched, the refusal is
    the last line of the log, and no later association is consulted. *)
Theorem loadPlugin_invalid_name (file : string) (s : Manager) (plugin : Plugin) :
  first_built regex_search (file_associations_ s) file = Done (Some plugin) →
  ValidName (getName (getDescription plugin)) = false →
  ∃ s', loadPlugin regex_search fs file s = Done (None, s')
        ∧ plugins_ s' = plugins_ s
        ∧ lookup_names_ s' = lookup_names_ s
        ∧ plugin_store s' = plugin_store s
        ∧ last (logged s')
          = Some {| log_level := Error;
                    log_message := "Could not load plugin from '" +:+ file
                      +:+ "': Plugin name contains invalid characters." |}.
Proof.
  intros Hbuilt Hvalid. unfold loadPlugin.
  set (s1 := if negb (fs_exists fs file) then _ else s).
  assert (Hs1 : file_associations_ s1 = file_associations_ s
                ∧ plugin_store s1 = plugin_store s ∧ plugins_ s1 = plugins_ s
                ∧ lookup_names_ s1 = lookup_names_ s)
    by (subst s1; by destruct (negb (fs_exists fs file))).
  destruct Hs1 as (Hfa & Hstore & Hplugins & Hnames).
  rewrite loadPlugin_loop_first_built, Hfa, Hbuilt. simpl. rewrite Hvalid. simpl.
  eexists. split; [done|]. simpl. split_and!; try done.
  apply last_snoc.
Qed.

(** X3: a file that does not exist is reported in the log and then handed
    to the loaders all the same: when the search through the associations
    builds a plugin with a valid name from the path, the plugin is
    registered. *)
Theorem loadPlugin_missing_file_still_loaded (file : string) (s : Manager) (plugin : Plugin) :
  fs_exists fs file = false →
  first_built regex_search (file_associations_ s) file = Done (Some plugin) →
  ValidName (getName (getDescription plugin)) = true →
  ∃ added s',
    loadPlugin regex_search fs file s = Done (Some added, s')
    ∧ getPlugin (getName (getDescription plugin)) s' = Some added
    ∧ plugin_store s' !! added = Some plugin
    ∧ logged s'
      = logged s ++ [{| log_level := Error;
                        log_message := "Could not load plugin from '" +:+ file
                          +:+ "': Provided file does not exist." |}].
Proof.
  intros Hmissing Hbuilt Hvalid. unfold loadPlugin.
  rewrite Hmissing. simpl.
  rewrite loadPlugin_loop_first_built. simpl. rewrite Hbuilt. simpl.
  rewrite Hvalid. simpl.
  eexists _, _. split; [done|]. simpl. split_and!; try done.
  - unfold getPlugin. simpl. by rewrite lookup_insert_eq.
  - apply lookup_insert_eq.
Qed.

(** X4: when the file exists and the search through the associations ends
    without a plugin (every pattern that matches holds a loader, and each
    of these declines the file), [loadPlugin] returns the null pointer and
    changes nothing at all: not even the log tells. *)
Theorem loadPlugin_declined_is_silent (file : string) (s : Manager) :
  fs_exists fs file = true →
  first_built regex_search (file_associations_ s) file = Done None →
  loadPlugin regex_search fs file s = Done (None, s).
Proof.
  intros Hexists Hbuilt. unfold loadPlugin. rewrite Hexists. simpl.
  by rewrite loadPlugin_loop_first_built, Hbuilt.
Qed.

(** X5: On a path that is missing or is not a directory [loadPlugins] returns
    the empty list, writes one error line and does nothing else; no
    loader is consulted, so this holds whatever the associations are. *)
Theorem loadPlugins_not_a_directory (directory : string) (s : Manager) :
  fs_is_directory fs directory = false →
  ∃ msg, loadPlugins regex_search fs directory s = Done ([], log_error msg s).
Proof.
  intros Hdir. unfold loadPlugins. rewrite Hdir.
  destruct (fs_exists fs directory); simpl; by eexists.
Qed.

End LoadingCases.

(** A loader that builds a plugin with a space in its name from
    [mods/odd.py], declines [mods/bad.py] and builds [script] from any
    other file; it is registered before [native_loader], whose second
    pattern is left with a null pointer. *)
Lemma loadPlugin_invalid_name_witness :
  let picky :=
    {| loader_loadPlugin := fun file =>
         if String.eqb file "mods/odd.py" then Some (Examples.plugin_called "my plugin")
         else if String.eqb file "mods/bad.py" then None
         else Some (Examples.plugin_called "script");
       getPluginFileFilters := [".py"] |} in
  let s := registerLoader Examples.native_loader (registerLoader picky new_manager) in
  usable_for Examples.suffix_search "mods/odd.py" (file_associations_ s) = false
  ∧ ∃ s', loadPlugin Examples.suffix_search Examples.mods_disk "mods/odd.py" s
          = Done (None, s')
          ∧ plugins_ s' = []
          ∧ length (logged s') = 2%nat.
Proof.
  intros picky s. split; [vm_compute; reflexivity|].
  destruct (loadPlugin_invalid_name Examples.suffix_search Examples.mods_disk "mods/odd.py"
              s (Examples.plugin_called "my plugin"))
    as (s' & Hrun & Hpl & _ & _ & _).
  - vm_compute. reflexivity.
  - vm_compute. reflexivity.
  - exists s'. split; [exact Hrun|]. split; [exact Hpl|].
    vm_compute in Hrun. inversion Hrun. reflexivity.
Defined.

Lemma loadPlugin_missing_file_still_loaded_witness :
  usable_for Examples.suffix_search "mods/ghost.py"
    (file_associations_ Examples.with_two_loaders) = false
  ∧ ∃ added s',
      loadPlugin Examples.suffix_search Examples.mods_disk "mods/ghost.py"
        Examples.with_two_loaders = Done (Some added, s')
      ∧ getPlugin "script" s' = Some added
      ∧ fs_exists Examples.mods_disk "mods/ghost.py" = false.
Proof.
  split; [vm_compute; reflexivity|].
  destruct (loadPlugin_missing_file_still_loaded Examples.suffix_search Examples.mods_disk
              "mods/ghost.py" Examples.with_two_loaders (Examples.plugin_called "script"))
    as (added & s' & Hrun & Hget & _).
  - vm_compute. reflexivity.
  - vm_compute. reflexivity.
  - vm_compute. reflexivity.
  - exists added, s'. split; [exact Hrun|]. split; [exact Hget|]. vm_compute. reflexivity.
Defined.

Lemma loadPlugin_declined_is_silent_witness :
  let picky :=
    {| loader_loadPlugin := fun file =>
         if String.eqb file "mods/a.py" then None
         else Some (Examples.plugin_called "script");
       getPluginFileFilters := [".py"] |} in
  let s := registerLoader Examples.native_loader (registerLoader picky new_manager) in
  usable_for Examples.suffix_search "mods/a.py" (file_associations_ s) = false
  ∧ loadPlugin Examples.suffix_search Examples.mods_disk "mods/a.py" s = Done (None, s).
Proof.
  intros picky s. split; [vm_compute; reflexivity|].
  apply (loadPlugin_declined_is_silent Examples.suffix_search Examples.mods_disk
           "mods/a.py" s).
  - vm_compute. reflexivity.
  - vm_compute. reflexivity.
Defined.

Lemma loadPlugins_not_a_directory_witness :
  ∃ msg, loadPlugins Examples.suffix_search Examples.disk "plugins/a.so"
           (registerLoader Examples.native_loader new_manager)
         = Done ([], log_error msg (registerLoader Examples.native_loader new_manager)).
Proof.
  apply (loadPlugins_not_a_directory Examples.suffix_search Examples.disk "plugins/a.so").
  vm_compute. reflexivity.
Defined.

Lemma outside_plugins_same_refl s : outside_plugins_same s s.
Proof. by repeat split. Qed.

Lemma outside_plugins_same_trans s1 s2 s3 :
  outside_plugins_same s1 s2 → outside_plugins_same s2 s3 → outside_plugins_same s1 s3.
Proof.
  intros (?&?&?&?&?&?&?&?) (?&?&?&?&?&?&?&?).
  unfold outside_plugins_same. split_and!; congruence.
Qed.

Section ScanOutcomes.

Variable regex_search : string → string → option bool.
Variable fs : FileSystem.

Lemma loadPlugins_loop_done entries : ∀ loaded_plugins s loaded s',
  registry_consistent s →
  loadPlugins_loop regex_search fs entries loaded_plugins s = Done (loaded, s') →
  ∃ new, loaded = loaded_plugins ++ new
         ∧ plugins_ s' = plugins_ s ++ new
         ∧ registry_consistent s'
         ∧ outside_plugins_same s s'
         ∧ ∀ a obj, plugin_store s !! a = Some obj → plugin_store s' !! a = Some obj.
Proof.
  induction entries as [|entry rest IH]; intros loaded_plugins s loaded s' Hcons; simpl.
  - intros [= <- <-]. exists []. rewrite !app_nil_r.
    split_and!; done.
  - destruct (entry_file fs entry) as [file|]; [|by apply IH].
    destruct (loadPlugin regex_search fs file s) as [[r s1]|] eqn:Hload; simpl; [|done].
    destruct (loadPlugin_consistent regex_search fs file s s1 r Hcons Hload)
      as (Hcons1 & Hout1 & Hmono1 & _).
    apply loadPlugin_done in Hload as [_ Hcase].
    destruct Hcase as [(-> & Hpl & _)|(a & plugin & -> & _ & _ & Hpl & _)]; intros Hloop.
    + destruct (IH _ _ _ _ Hcons1 Hloop) as (new & -> & Hpl' & Hcons' & Hout' & Hmono').
      exists new. split_and!; try done.
      * congruence.
      * by eapply outside_plugins_same_trans.
      * intros x obj Hx. by apply Hmono', Hmono1.
    + destruct (IH _ _ _ _ Hcons1 Hloop) as (new & -> & Hpl' & Hcons' & Hout' & Hmono').
      exists (a :: new). split_and!; try done.
      * by rewrite <- app_assoc.
      * by rewrite Hpl', Hpl, <- app_assoc.
      * by eapply outside_plugins_same_trans.
      * intros x obj Hx. by apply Hmono', Hmono1.
Qed.

(** X6: Whatever [loadPlugins] returns, the pointers it returns are exactly
    what it appended to [plugins_], in order; they are pairwise distinct
    and none was owned before; the registry stays consistent, objects
    loaded earlier are not altered, and nothing outside the plugin
    registry and the log changes. *)
Theorem loadPlugins_keeps_consistency (directory : string) (s s' : Manager)
    (loaded : list addr) :
  registry_consistent s →
  loadPlugins regex_search fs directory s = Done (loaded, s') →
  registry_consistent s'
  ∧ plugins_ s' = plugins_ s ++ loaded
  ∧ NoDup loaded
  ∧ (∀ a, a ∈ loaded → a ∉ plugins_ s)
  ∧ outside_plugins_same s s'
  ∧ ∀ a obj, plugin_store s !! a = Some obj → plugin_store s' !! a = Some obj.
Proof.
  intros Hcons. unfold loadPlugins.
  assert (Hempty : ∀ msg, Done ([] : list addr, log_error msg s) = Done (loaded, s') →
            registry_consistent s' ∧ plugins_ s' = plugins_ s ++ loaded ∧ NoDup loaded
            ∧ (∀ a, a ∈ loaded → a ∉ plugins_ s) ∧ outside_plugins_same s s'
            ∧ ∀ a obj, plugin_store s !! a = Some obj → plugin_store s' !! a = Some obj).
  { intros msg [= <- <-]. rewrite app_nil_r.
    split_and!; first [done | apply NoDup_nil_2 | by intros a Ha%elem_of_nil]. }
  destruct (negb (fs_exists fs directory)); [apply Hempty|].
  destruct (negb (fs_is_directory fs directory)); [apply Hempty|].
  intros Hloop.
  destruct (loadPlugins_loop_done _ _ _ _ _ Hcons Hloop)
    as (new & Hnew & Hpl & Hcons' & Hout & Hmono).
  simpl in Hnew. subst new.
  destruct Hcons' as (Hnodup & Hrest). rewrite Hpl in Hnodup.
  apply NoDup_app in Hnodup as (_ & Hdisjoint & Hnodup).
  split_and!; try done.
  - split; [|exact Hrest]. rewrite Hpl. apply NoDup_app.
    destruct Hcons as (Hnd & _). by split_and!.
  - intros a Ha Hin. by apply (Hdisjoint a).
Qed.

End ScanOutcomes.

Lemma loadPlugins_keeps_consistency_witness :
  ∃ loaded s',
    loadPlugins Examples.suffix_search Examples.disk "plugins" Examples.with_so_loader
      = Done (loaded, s')
    ∧ registry_consistent s'
    ∧ plugins_ s' = loaded.
Proof.
  destruct (loadPlugins Examples.suffix_search Examples.disk "plugins"
              Examples.with_so_loader) as [[loaded s']|] eqn:Hrun;
    [|vm_compute in Hrun; discriminate Hrun].
  exists loaded, s'. split; [reflexivity|].
  destruct (loadPlugins_keeps_consistency Examples.suffix_search Examples.disk "plugins"
              Examples.with_so_loader s' loaded) as (Hcons & Hpl & _).
  - apply registry_consistent_empty; reflexivity.
  - exact Hrun.
  - split; [exact Hcons | exact Hpl].
Defined.

(** ** Queries on a consistent registry *)

(** X7: On a consistent registry [isPluginEnabled] always returns, and it
    returns [true] exactly for a registered name whose object has the
    flag set. *)
Theorem isPluginEnabled_on_consistent (name : string) (s : Manager) :
  registry_consistent s →
  ∃ b, isPluginEnabled name s = Done b
       ∧ (b = true ↔ ∃ a obj, getPlugin name s = Some a
                              ∧ plugin_store s !! a = Some obj ∧ isEnabled obj = true).
Proof.
  intros (_ & Halive & Hnames). unfold isPluginEnabled, getPlugin.
  destruct (lookup_names_ s !! name) as [a|] eqn:Ha; simpl.
  - destruct (Hnames name a Ha) as [Hin _].
    rewrite bool_decide_eq_true_2 by done.
    destruct (Halive a Hin) as [obj Hobj]. rewrite Hobj.
    exists (isEnabled obj). split; [done|]. split.
    + intros Hen. by exists a, obj.
    + intros (a' & obj' & [= <-] & Hobj' & Hen). congruence.
  - exists false. split; [done|]. split; [done|]. by intros (? & ? & ? & _).
Qed.

Lemma isPluginEnabled_on_consistent_witness :
  ∃ b, isPluginEnabled "demo" Examples.with_demo = Done b
       ∧ (b = true ↔ ∃ a obj, getPlugin "demo" Examples.with_demo = Some a
                              ∧ plugin_store Examples.with_demo !! a = Some obj
                              ∧ isEnabled obj = true).
Proof.
  apply (isPluginEnabled_on_consistent "demo" Examples.with_demo).
  apply with_demo_consistent.
Defined.

(** ** Enabling and disabling *)

Lemma setEnabled_same obj : setEnabled (isEnabled obj) obj = obj.
Proof. by destruct obj. Qed.

Lemma enablePlugin_effect plugin s obj :
  plugin_store s !! plugin = Some obj → isEnabled obj = false →
  enablePlugin plugin s
  = Done (set_plugin_store (<[plugin := setEnabled true obj]> (plugin_store s))
            (log_info ("Enabling " +:+ getFullName (getDescription obj))
               (set_command_map_ (command_map_ s ++ command_registration plugin obj) s))).
Proof.
  intros Hobj Hen. unfold enablePlugin, PluginLoader_enablePlugin, command_registration.
  rewrite Hobj, Hen. simpl.
  destruct (getCommands (getDescription obj)) as [|c cs]; simpl; rewrite Hobj, Hen; simpl.
  - rewrite app_nil_r. by destruct s.
  - done.
Qed.

Lemma disablePlugin_effect plugin s obj :
  plugin_store s !! plugin = Some obj →
  ∃ s1, disablePlugin plugin s = Done s1
        ∧ plugin_store s1 = <[plugin := setEnabled false obj]> (plugin_store s)
        ∧ plugins_ s1 = plugins_ s
        ∧ lookup_names_ s1 = lookup_names_ s
        ∧ outside_plugins_same s s1
        ∧ logged s1
          = logged s ++ (if isEnabled obj
                         then [{| log_level := Info;
                                  log_message :=
                                    "Disabling " +:+ getFullName (getDescription obj) |}]
                         else []).
Proof.
  intros Hobj. unfold disablePlugin, PluginLoader_disablePlugin. rewrite Hobj.
  destruct (isEnabled obj) eqn:Hen.
  - eexists. split; [done|]. by repeat split.
  - exists s. rewrite app_nil_r. split_and!; try done.
    rewrite <- Hen, setEnabled_same. symmetry. by apply insert_id.
Qed.

Lemma enable_then_disable (plugin : addr) (s : Manager) (obj : Plugin) :
  plugin_store s !! plugin = Some obj →
  isEnabled obj = false →
  ∃ s1 s2,
    enablePlugin plugin s = Done s1
    ∧ disablePlugin plugin s1 = Done s2
    ∧ plugin_store s2 = plugin_store s
    ∧ command_map_ s2 = command_map_ s ++ command_registration plugin obj
    ∧ logged s2
      = logged s
        ++ [{| log_level := Info;
               log_message := "Enabling " +:+ getFullName (getDescription obj) |};
            {| log_level := Info;
               log_message := "Disabling " +:+ getFullName (getDescription obj) |}].
Proof.
  intros Hobj Hen.
  pose proof (enablePlugin_effect plugin s obj Hobj Hen) as Hfirst.
  set (s1 := set_plugin_store _ _) in Hfirst.
  destruct (disablePlugin_effect plugin s1 (setEnabled true obj))
    as (s2 & Hrun & Hst & _ & _ & Hout & Hlog).
  { subst s1. simpl. apply lookup_insert_eq. }
  exists s1, s2. split; [done|]. split; [exact Hrun|].
  destruct Hout as (_ & _ & _ & _ & _ & _ & Hcm & _).
  subst s1. simpl in *. split_and!.
  - rewrite Hst, insert_insert_eq. apply insert_id.
    rewrite Hobj. f_equal. destruct obj; simpl in *; by subst.
  - exact Hcm.
  - by rewrite Hlog, <- app_assoc.
Qed.

(** X8: [disablePlugin] after [enablePlugin] on a plugin that was disabled
    puts every plugin object back as it was, but the commands registered
    by the enabling stay in the command map; the log has gained the two
    transitions. *)
Theorem disablePlugin_keeps_commands (plugin : addr) (s : Manager) (obj : Plugin) :
  plugin_store s !! plugin = Some obj →
  isEnabled obj = false →
  ∃ s1 s2,
    enablePlugin plugin s = Done s1
    ∧ disablePlugin plugin s1 = Done s2
    ∧ plugin_store s2 = plugin_store s
    ∧ command_map_ s2 = command_map_ s ++ command_registration plugin obj
    ∧ logged s2
      = logged s
        ++ [{| log_level := Info;
               log_message := "Enabling " +:+ getFullName (getDescription obj) |};
            {| log_level := Info;
               log_message := "Disabling " +:+ getFullName (getDescription obj) |}].
Proof. apply enable_then_disable. Qed.

Lemma disablePlugin_keeps_commands_witness :
  ∃ s1 s2,
    enablePlugin 1%positive Examples.with_demo = Done s1
    ∧ disablePlugin 1%positive s1 = Done s2
    ∧ plugin_store s2 = plugin_store Examples.with_demo
    ∧ length (command_map_ s2) = 1%nat.
Proof.
  destruct (disablePlugin_keeps_commands 1%positive Examples.with_demo
              (Examples.plugin_called "demo")) as (s1 & s2 & H1 & H2 & Hst & Hcm & _).
  - vm_compute. reflexivity.
  - reflexivity.
  - exists s1, s2. split_and!; try done. rewrite Hcm. reflexivity.
Defined.

(** X9: Enabling, disabling and enabling again registers the plugin's
    commands a second time: after the three calls the command map holds
    the same registration twice. *)
Theorem enablePlugin_again_registers_again (plugin : addr) (s : Manager) (obj : Plugin) :
  plugin_store s !! plugin = Some obj →
  isEnabled obj = false →
  ∃ s1 s2 s3,
    enablePlugin plugin s = Done s1
    ∧ disablePlugin plugin s1 = Done s2
    ∧ enablePlugin plugin s2 = Done s3
    ∧ command_map_ s3
      = command_map_ s ++ command_registration plugin obj ++ command_registration plugin obj
    ∧ plugin_store s3 = <[plugin := setEnabled true obj]> (plugin_store s).
Proof.
  intros Hobj Hen.
  destruct (enable_then_disable plugin s obj Hobj Hen)
    as (s1 & s2 & H1 & H2 & Hst & Hcm & _).
  assert (Hobj2 : plugin_store s2 !! plugin = Some obj) by (by rewrite Hst).
  exists s1, s2. eexists. split; [done|]. split; [done|].
  rewrite (enablePlugin_effect plugin s2 obj Hobj2 Hen).
  split; [done|]. simpl. rewrite Hcm, Hst. by rewrite <- app_assoc.
Qed.

Lemma enablePlugin_again_registers_again_witness :
  ∃ s1 s2 s3,
    enablePlugin 1%positive Examples.with_demo = Done s1
    ∧ disablePlugin 1%positive s1 = Done s2
    ∧ enablePlugin 1%positive s2 = Done s3
    ∧ length (command_map_ s3) = 2%nat.
Proof.
  destruct (enablePlugin_again_registers_again 1%positive Examples.with_demo
              (Examples.plugin_called "demo")) as (s1 & s2 & s3 & H1 & H2 & H3 & Hcm & _).
  - vm_compute. reflexivity.
  - reflexivity.
  - exists s1, s2, s3. split_and!; try done. rewrite Hcm. reflexivity.
Defined.

(** ** Shutting down *)

Lemma disablePlugins_loop_effect plugins : ∀ s,
  (∀ a, a ∈ plugins → is_Some (plugin_store s !! a)) →
  ∃ s', disablePlugins_loop plugins s = Done s'
        ∧ plugins_ s' = plugins_ s
        ∧ lookup_names_ s' = lookup_names_ s
        ∧ outside_plugins_same s s'
        ∧ ∀ a, plugin_store s' !! a
               = (fun obj => if decide (a ∈ plugins) then setEnabled false obj else obj)
                   <$> plugin_store s !! a.
Proof.
  induction plugins as [|plugin rest IH]; intros s Halive; simpl.
  - exists s. split_and!; try done.
    intros a. destruct (plugin_store s !! a); simpl; [|done].
    destruct (decide (a ∈ [])) as [Hin|]; [by apply elem_of_nil in Hin | done].
  - destruct (Halive plugin) as [obj Hobj]; [by left|].
    destruct (disablePlugin_effect plugin s obj Hobj)
      as (s1 & Hrun & Hst & Hpl & Hln & Hout & _).
    rewrite Hrun. simpl.
    destruct (IH s1) as (s' & Hloop & Hpl' & Hln' & Hout' & Hst').
    { intros a Ha. rewrite Hst.
      destruct (decide (plugin = a)) as [->|Hne].
      - rewrite lookup_insert_eq. by eexists.
      - rewrite lookup_insert_ne by done. apply Halive. by right. }
    exists s'. split_and!; try done; try congruence.
    + by eapply outside_plugins_same_trans.
    + intros a. rewrite Hst', Hst.
      destruct (decide (plugin = a)) as [->|Hne].
      * rewrite lookup_insert_eq, Hobj. simpl.
        rewrite (decide_True (P := a ∈ a :: rest)) by (by left).
        by destruct (decide (a ∈ rest)).
      * rewrite lookup_insert_ne by done.
        destruct (plugin_store s !! a); simpl; [|done].
        destruct (decide (a ∈ rest)) as [Hin|Hnin].
        -- by rewrite decide_True by (by right).
        -- rewrite decide_False; [done|].
           intros [?|?]%elem_of_cons; congruence.
Qed.

(** X10: When every owned object is alive, [disablePlugins] returns and has
    cleared the flag of every owned plugin, once; objects that are not
    owned, the name index, the owned collection and the command map are
    as before. *)
Theorem disablePlugins_disables_all (s : Manager) :
  (∀ a, a ∈ plugins_ s → is_Some (plugin_store s !! a)) →
  ∃ s', disablePlugins s = Done s'
        ∧ (∀ a, a ∈ plugins_ s → isEnabled <$> plugin_store s' !! a = Some false)
        ∧ (∀ a, a ∉ plugins_ s → plugin_store s' !! a = plugin_store s !! a)
        ∧ plugins_ s' = plugins_ s
        ∧ lookup_names_ s' = lookup_names_ s
        ∧ command_map_ s' = command_map_ s.
Proof.
  intros Halive. unfold disablePlugins.
  destruct (disablePlugins_loop_effect (plugins_ s) s Halive)
    as (s' & Hloop & Hpl & Hln & Hout & Hst).
  exists s'. split_and!; try done.
  - intros a Ha. rewrite Hst. destruct (Halive a Ha) as [obj ->]. simpl.
    by rewrite decide_True.
  - intros a Ha. rewrite Hst. destruct (plugin_store s !! a); simpl; [|done].
    by rewrite decide_False.
  - by destruct Hout as (_ & _ & _ & _ & _ & _ & Hcm & _).
Qed.

Lemma disablePlugins_disables_all_witness :
  ∃ s', disablePlugins Examples.with_demo = Done s'
        ∧ isEnabled <$> plugin_store s' !! 1%positive = Some false.
Proof.
  destruct (disablePlugins_disables_all Examples.with_demo) as (s' & Hrun & Hall & _).
  - intros a ->%list_elem_of_singleton. by eexists.
  - exists s'. split; [exact Hrun|]. apply Hall. by apply list_elem_of_singleton.
Defined.

Lemma lookup_foldr_delete {V} (l : list addr) (m : gmap addr V) (a : addr) :
  foldr (fun p store => delete p store) m l !! a
  = if decide (a ∈ l) then None else m !! a.
Proof.
  induction l as [|p l IH]; simpl.
  - destruct (decide (a ∈ [])) as [Hin|]; [by apply elem_of_nil in Hin | done].
  - destruct (decide (p = a)) as [->|Hne].
    + rewrite lookup_delete_eq. by rewrite decide_True by (by left).
    + rewrite lookup_delete_ne, IH by done.
      destruct (decide (a ∈ l)) as [Hin|Hnin].
      * by rewrite decide_True by (by right).
      * rewrite decide_False; [done|]. intros [?|?]%elem_of_cons; congruence.
Qed.

(** X11: When every owned object is alive, [clearPlugins] returns and leaves
    an empty, consistent registry: no plugin is owned, no name resolves,
    [isPluginEnabled] is [false] for every name, and every object that
    was owned is destroyed.  Objects that were not owned and everything
    outside the plugin registry are untouched. *)
Theorem clearPlugins_empties (s : Manager) :
  (∀ a, a ∈ plugins_ s → is_Some (plugin_store s !! a)) →
  ∃ s', clearPlugins s = Done s'
        ∧ getPlugins s' = []
        ∧ (∀ name, getPlugin name s' = None ∧ isPluginEnabled name s' = Done false)
        ∧ (∀ a, a ∈ plugins_ s → plugin_store s' !! a = None)
        ∧ (∀ a, a ∉ plugins_ s → plugin_store s' !! a = plugin_store s !! a)
        ∧ registry_consistent s'
        ∧ outside_plugins_same s s'.
Proof.
  intros Halive. unfold clearPlugins, disablePlugins.
  destruct (disablePlugins_loop_effect (plugins_ s) s Halive)
    as (s1 & Hloop & Hpl & Hln & Hout & Hst).
  rewrite Hloop. simpl. eexists. split; [done|]. simpl.
  split_and!; try done.
  - intros a Ha. rewrite lookup_foldr_delete, Hpl. by rewrite decide_True.
  - intros a Ha. rewrite lookup_foldr_delete, Hpl, decide_False by done.
    rewrite Hst. destruct (plugin_store s !! a); simpl; [|done].
    by rewrite decide_False.
  - by apply registry_consistent_empty.
Qed.

Lemma clearPlugins_empties_witness :
  ∃ s', clearPlugins Examples.with_demo = Done s'
        ∧ getPlugins s' = []
        ∧ getPlugin "demo" s' = None
        ∧ plugin_store s' !! 1%positive = None.
Proof.
  destruct (clearPlugins_empties Examples.with_demo)
    as (s' & Hrun & Hpl & Hnames & Hgone & _).
  - intros a ->%list_elem_of_singleton. by eexists.
  - exists s'. split_and!; try done.
    + apply Hnames.
    + apply Hgone. by apply list_elem_of_singleton.
Defined.

(** A plugin object that is destroyed while still owned makes
    [disablePlugins], and with it [clearPlugins], undefined. *)
Lemma disablePlugins_dangling s a :
  plugins_ s = [a] → plugin_store s !! a = None →
  disablePlugins s = Undefined "use of a destroyed Plugin".
Proof.
  intros Hpl Ha. unfold disablePlugins. rewrite Hpl. simpl.
  unfold disablePlugin. by rewrite Ha.
Qed.

(** ** Subscriptions: who is listed *)

Lemma subscript_value {K} `{Countable K} {V} `{Empty V} (m : gmap K V) (k : K) :
  (subscript m k).2 = default ∅ (m !! k).
Proof. unfold subscript. by destruct (m !! k). Qed.

Lemma subscript_lookup_ne {K} `{Countable K} {V} `{Empty V} (m : gmap K V) (k j : K) :
  k ≠ j → (subscript m k).1 !! j = m !! j.
Proof.
  intros Hne. unfold subscript. destruct (m !! k); simpl; [done|].
  by rewrite lookup_insert_ne.
Qed.

Lemma elem_of_keys {V} (m : gmap addr V) (q : addr) :
  q ∈ (map_to_list m).*1 ↔ is_Some (m !! q).
Proof.
  rewrite list_elem_of_fmap. split.
  - intros ([a v] & -> & Hin). apply elem_of_map_to_list in Hin. by eexists.
  - intros [v Hv]. exists (q, v). split; [done|]. by apply elem_of_map_to_list.
Qed.

Lemma elem_of_subscribers {K} `{Countable K} (m : gmap K (gmap addr bool)) (k : K) (q : addr) :
  q ∈ match m !! k with Some map => (map_to_list map).*1 | None => [] end
  ↔ is_Some (default ∅ (m !! k) !! q).
Proof.
  destruct (m !! k) as [map|]; simpl.
  - apply elem_of_keys.
  - rewrite lookup_empty. split; [by intros ?%elem_of_nil | by intros [? ?]].
Qed.

(** X12: After [subscribeToPermission(name, p)] the subscribers of any name
    are the former ones, and [p] as well when the name equals [name] up
    to case. *)
Theorem subscribeToPermission_exact
    (name other : string) (p : Permissible) (s : Manager) (q : addr) :
  q ∈ getPermissionSubscriptions other (subscribeToPermission name p s)
  ↔ q ∈ getPermissionSubscriptions other s
    ∨ (lower other = lower name ∧ q = permissible_addr p).
Proof.
  unfold getPermissionSubscriptions, subscribeToPermission.
  pose proof (subscript_value (permission_subscriptions_ s) (lower name)) as Hval.
  pose proof (subscript_lookup_ne (permission_subscriptions_ s) (lower name) (lower other))
    as Hne.
  destruct (subscript (permission_subscriptions_ s) (lower name)) as [m map].
  simpl in *. rewrite !elem_of_subscribers.
  destruct (decide (lower name = lower other)) as [Heq|Hdiff].
  - rewrite Heq, lookup_insert_eq. simpl. rewrite Hval, Heq.
    destruct (decide (permissible_addr p = q)) as [<-|Hq].
    + rewrite lookup_insert_eq. split; [intros _; by right | by eexists].
    + rewrite lookup_insert_ne by done. split; [by left|].
      intros [?|[_ ?]]; [done|congruence].
  - rewrite lookup_insert_ne, Hne by done. split; [by left|].
    intros [?|[? _]]; [done|congruence].
Qed.

(** X13: after [subscribeToDefaultPermissions(p)] the default subscribers
    of any role are the former ones, and [p] as well when the role is the
    role of [p]. *)
Theorem subscribeToDefaultPermissions_exact
    (p : Permissible) (s : Manager) (role : PermissibleRole) (q : addr) :
  q ∈ getDefaultPermissionSubscriptions role (subscribeToDefaultPermissions p s)
  ↔ q ∈ getDefaultPermissionSubscriptions role s
    ∨ (role = getRole p ∧ q = permissible_addr p).
Proof.
  unfold getDefaultPermissionSubscriptions, subscribeToDefaultPermissions.
  pose proof (subscript_value (default_subscriptions_ s) (getRole p)) as Hval.
  pose proof (subscript_lookup_ne (default_subscriptions_ s) (getRole p) role) as Hne.
  destruct (subscript (default_subscriptions_ s) (getRole p)) as [m map].
  simpl in *. rewrite !elem_of_subscribers.
  destruct (decide (getRole p = role)) as [Heq|Hdiff].
  - rewrite <- Heq, lookup_insert_eq. simpl. rewrite Hval.
    destruct (decide (permissible_addr p = q)) as [<-|Hq].
    + rewrite lookup_insert_eq. split; [intros _; by right | by eexists].
    + rewrite lookup_insert_ne by done. split; [by left|].
      intros [?|[_ ?]]; [done|congruence].
  - rewrite lookup_insert_ne, Hne by done. split; [by left|].
    intros [?|[? _]]; [done|congruence].
Qed.

(** X14: [unsubscribeFromDefaultPermissions(p)] takes [p] out of the list of
    its role and leaves every other listing alone. *)
Theorem unsubscribeFromDefaultPermissions_exact
    (p : Permissible) (s : Manager) (role : PermissibleRole) (q : addr) :
  q ∈ getDefaultPermissionSubscriptions role (unsubscribeFromDefaultPermissions p s)
  ↔ q ∈ getDefaultPermissionSubscriptions role s
    ∧ ¬ (role = getRole p ∧ q = permissible_addr p).
Proof.
  unfold getDefaultPermissionSubscriptions, unsubscribeFromDefaultPermissions.
  pose proof (subscript_value (default_subscriptions_ s) (getRole p)) as Hval.
  pose proof (subscript_lookup_ne (default_subscriptions_ s) (getRole p) role) as Hne.
  destruct (subscript (default_subscriptions_ s) (getRole p)) as [m map].
  simpl in *. rewrite !elem_of_subscribers.
  destruct (decide (getRole p = role)) as [Heq|Hdiff].
  - rewrite <- Heq, lookup_insert_eq. simpl. rewrite Hval.
    destruct (decide (permissible_addr p = q)) as [<-|Hq].
    + rewrite lookup_delete_eq. split; [by intros [? ?]|]. intros [_ Hno]. by destruct Hno.
    + rewrite lookup_delete_ne by done. split; [|by intros [? _]].
      intros Hin. split; [done|]. intros [_ ?]. congruence.
  - rewrite lookup_insert_ne, Hne by done. split; [|by intros [? _]].
    intros Hin. split; [done|]. intros [? _]. congruence.
Qed.

(** X15: Subscribing a second time changes nothing: the manager after two
    identical calls of [subscribeToPermission] is the manager after one,
    and no list of subscribers ever names a permissible twice. *)
Theorem subscribeToPermission_idempotent (name : string) (p : Permissible) (s : Manager) :
  subscribeToPermission name p (subscribeToPermission name p s)
  = subscribeToPermission name p s
  ∧ ∀ other s0, NoDup (getPermissionSubscriptions other s0).
Proof.
  split.
  - unfold subscribeToPermission at 1 3.
    set (s1 := subscribeToPermission name p s).
    assert (Hs1 : permission_subscriptions_ s1 !! lower name
                  = Some (<[permissible_addr p := true]>
                            (subscript (permission_subscriptions_ s) (lower name)).2)).
    { subst s1. unfold subscribeToPermission.
      destruct (subscript (permission_subscriptions_ s) (lower name)) as [m map].
      simpl. apply lookup_insert_eq. }
    unfold subscript at 1. rewrite Hs1.
    subst s1. unfold subscribeToPermission.
    destruct (subscript (permission_subscriptions_ s) (lower name)) as [m map].
    simpl. by rewrite !insert_insert_eq.
  - intros other s0. unfold getPermissionSubscriptions.
    destruct (permission_subscriptions_ s0 !! lower other); [|apply NoDup_nil_2].
    apply NoDup_fst_map_to_list.
Qed.

(** ** Default sets and notifications *)

Lemma notify_all l : ∀ s,
  fold_left (fun s' p => recalculatePermissions p s') l s
  = set_recalculated (recalculated s ++ l) s.
Proof.
  induction l as [|p l IH]; intros s; simpl.
  - rewrite app_nil_r. by destruct s.
  - rewrite IH. unfold recalculatePermissions, set_recalculated. simpl.
    by rewrite <- app_assoc.
Qed.

Lemma updatePermissibles_effect role s :
  updatePermissibles role s
  = set_recalculated (recalculated s ++ getDefaultPermissionSubscriptions role s) s.
Proof. unfold updatePermissibles. apply notify_all. Qed.

(** X16: [updatePermissibles(role)] calls [recalculatePermissions] on each
    permissible subscribed to the defaults of [role], once each, and on
    nobody else; nothing else in the manager changes. *)
Theorem updatePermissibles_notifies (role : PermissibleRole) (s : Manager) :
  updatePermissibles role s
  = set_recalculated (recalculated s ++ getDefaultPermissionSubscriptions role s) s
  ∧ NoDup (getDefaultPermissionSubscriptions role s).
Proof.
  split.
  - apply updatePermissibles_effect.
  - unfold getDefaultPermissionSubscriptions.
    destruct (default_subscriptions_ s !! role); [|apply NoDup_nil_2].
    apply NoDup_fst_map_to_list.
Qed.

Lemma defaults_frame_refl s : defaults_frame s s.
Proof. by repeat split. Qed.

Lemma defaults_frame_trans s1 s2 s3 :
  defaults_frame s1 s2 → defaults_frame s2 s3 → defaults_frame s1 s3.
Proof.
  intros (?&?&?&?&?&?&?&?&?&?) (?&?&?&?&?&?&?&?&?&?).
  unfold defaults_frame. split_and!; congruence.
Qed.

Lemma notified_for_frame policy roles s s' :
  default_subscriptions_ s' = default_subscriptions_ s →
  notified_for policy roles s' = notified_for policy roles s.
Proof.
  intros Hsame. unfold notified_for, getDefaultPermissionSubscriptions.
  by rewrite Hsame.
Qed.

Lemma calculatePermissionDefault_step_effect permission policy update s role :
  let s' := calculatePermissionDefault_step permission policy update s role in
  defaults_frame s s'
  ∧ default_permissions_ s'
    = (if policy role
       then alter (fun permissions => permissions ++ [permission]) role (default_permissions_ s)
       else default_permissions_ s)
  ∧ recalculated s'
    = recalculated s
      ++ (if update then notified_for policy [role] s else []).
Proof.
  unfold calculatePermissionDefault_step, notified_for. simpl.
  destruct (policy role); simpl.
  - destruct update.
    + rewrite updatePermissibles_effect. simpl.
      rewrite app_nil_r. by repeat split.
    + rewrite app_nil_r. by repeat split.
  - destruct update; rewrite app_nil_r; by repeat split.
Qed.

(** A whole pass of [calculatePermissionDefault] over distinct roles. *)
Lemma calculatePermissionDefault_pass permission policy update roles : ∀ s,
  NoDup roles →
  let s' := fold_left (calculatePermissionDefault_step permission policy update) roles s in
  defaults_frame s s'
  ∧ (∀ role, default_permissions_ s' !! role
             = (fun permissions =>
                  if decide (role ∈ roles)
                  then if policy role then permissions ++ [permission] else permissions
                  else permissions) <$> default_permissions_ s !! role)
  ∧ recalculated s'
    = recalculated s ++ (if update then notified_for policy roles s else []).
Proof.
  induction roles as [|r roles IH]; intros s Hnodup; simpl.
  - split; [apply defaults_frame_refl|]. split.
    + intros role. destruct (default_permissions_ s !! role); simpl; [|done].
      destruct (decide (role ∈ [])) as [Hin|]; [by apply elem_of_nil in Hin | done].
    + destruct update; by rewrite app_nil_r.
  - apply NoDup_cons in Hnodup as [Hr Hnodup].
    destruct (calculatePermissionDefault_step_effect permission policy update s r)
      as (Hframe1 & Hdef1 & Hrec1).
    set (s1 := calculatePermissionDefault_step permission policy update s r) in *.
    destruct (IH s1 Hnodup) as (Hframe & Hdef & Hrec).
    split; [by eapply defaults_frame_trans|]. split.
    + intros role. rewrite Hdef, Hdef1.
      destruct (decide (role = r)) as [->|Hne].
      * destruct (policy r) eqn:Hpolicy.
        -- rewrite lookup_alter_eq.
           destruct (default_permissions_ s !! r); simpl; [|done].
           rewrite decide_False by done. by rewrite decide_True by (by left).
        -- destruct (default_permissions_ s !! r); simpl; [|done].
           rewrite decide_False by done. by rewrite decide_True by (by left).
      * assert (Hother : (if policy r
                          then alter (fun permissions => permissions ++ [permission]) r
                                 (default_permissions_ s)
                          else default_permissions_ s) !! role
                         = default_permissions_ s !! role).
        { destruct (policy r); [|done]. by rewrite lookup_alter_ne. }
        rewrite Hother.
        destruct (default_permissions_ s !! role); simpl; [|done].
        destruct (decide (role ∈ roles)) as [Hin|Hnin].
        -- by rewrite decide_True by (by right).
        -- rewrite decide_False; [done|]. intros [?|?]%elem_of_cons; congruence.
    + rewrite Hrec, Hrec1. destruct update; [|by rewrite !app_nil_r].
      rewrite <- app_assoc. f_equal.
      f_equal.
      * unfold notified_for. simpl. apply app_nil_r.
      * apply notified_for_frame. by destruct Hframe1 as (_&_&_&_&_&_&?&_).
Qed.

Lemma keys_of_defaults (m : gmap PermissibleRole (list addr)) :
  NoDup (map_to_list m).*1
  ∧ ∀ role, role ∈ (map_to_list m).*1 ↔ is_Some (m !! role).
Proof.
  split; [apply NoDup_fst_map_to_list|].
  intros role. rewrite list_elem_of_fmap. split.
  - intros ([r v] & -> & Hin). apply elem_of_map_to_list in Hin. by eexists.
  - intros [v Hv]. exists (role, v). split; [done|]. by apply elem_of_map_to_list.
Qed.

(** What [calculatePermissionDefault] does to a live node: it is appended
    to the default set of each role that has one and that its policy
    grants; no entry is created for a role without one; when [update] is
    set the default subscribers of those roles are notified, role by
    role, and otherwise nobody is. *)
Lemma calculatePermissionDefault_effect permission update s obj :
  permission_store s !! permission = Some obj →
  ∃ s' roles,
    calculatePermissionDefault permission update s = Done s'
    ∧ defaults_frame s s'
    ∧ NoDup roles
    ∧ (∀ role, role ∈ roles ↔ is_Some (default_permissions_ s !! role))
    ∧ (∀ role, default_permissions_ s' !! role
               = (fun permissions =>
                    if perm_default obj role then permissions ++ [permission]
                    else permissions) <$> default_permissions_ s !! role)
    ∧ recalculated s'
      = recalculated s ++ (if update then notified_for (perm_default obj) roles s else []).
Proof.
  intros Hobj. unfold calculatePermissionDefault. rewrite Hobj.
  destruct (keys_of_defaults (default_permissions_ s)) as [Hnodup Hkeys].
  destruct (calculatePermissionDefault_pass permission (perm_default obj) update
              (map_to_list (default_permissions_ s)).*1 s Hnodup)
    as (Hframe & Hdef & Hrec).
  eexists _, _. split; [done|]. split_and!; try done.
  intros role. rewrite Hdef.
  destruct (default_permissions_ s !! role) as [permissions|] eqn:Hrole; simpl; [|done].
  rewrite decide_True; [done|]. apply Hkeys. by rewrite Hrole.
Qed.

Section NewNodes.

Variable SimplePermission_default : PermissibleRole → bool.

Lemma addPermission_fresh (name : string) (update : bool) (s : Manager) :
  getPermission name s = None →
  ∃ it s' roles,
    addPermission SimplePermission_default name update s = Done (it, s')
    ∧ permission_store s !! it = None
    ∧ permission_store s'
      = <[it := SimplePermission SimplePermission_default (lower name)]> (permission_store s)
    ∧ permissions_ s' = <[lower name := it]> (permissions_ s)
    ∧ NoDup roles
    ∧ (∀ role, role ∈ roles ↔ is_Some (default_permissions_ s !! role))
    ∧ (∀ role, default_permissions_ s' !! role
               = (fun permissions =>
                    if SimplePermission_default role then permissions ++ [it]
                    else permissions) <$> default_permissions_ s !! role)
    ∧ recalculated s'
      = recalculated s
        ++ (if update then notified_for SimplePermission_default roles s else [])
    ∧ logged s' = logged s.
Proof.
  unfold getPermission, addPermission.
  destruct (permissions_ s !! lower name) as [it|] eqn:Hit; [done|]. intros _.
  set (it := fresh (dom (permission_store s))).
  set (s0 := set_permissions_ _ _).
  destruct (calculatePermissionDefault_effect it update s0
              (SimplePermission SimplePermission_default (lower name)))
    as (s' & roles & Hrun & Hframe & Hnodup & Hkeys & Hdef & Hrec).
  { apply lookup_insert_eq. }
  destruct Hframe as (_ & _ & _ & _ & Hperms & Hstore & _ & _ & Hlog & _).
  exists it, s', roles. rewrite Hrun. simpl. split; [done|].
  split_and!; try done.
  subst it. apply not_elem_of_dom, is_fresh.
Qed.

(** X17: [addPermission] of a name that is not in the table creates the node
    at an unused address, enters it in the table under the lower-case
    name, appends it to the default set of every role that has a set and
    that the node's policy grants, and logs nothing.  With [update] the
    default subscribers of those roles are notified, once per role;
    without it nobody is. *)
Theorem addPermission_new_node (name : string) (update : bool) (s : Manager) :
  getPermission name s = None →
  ∃ it s' roles,
    addPermission SimplePermission_default name update s = Done (it, s')
    ∧ permission_store s !! it = None
    ∧ permission_store s'
      = <[it := SimplePermission SimplePermission_default (lower name)]> (permission_store s)
    ∧ permissions_ s' = <[lower name := it]> (permissions_ s)
    ∧ NoDup roles
    ∧ (∀ role, role ∈ roles ↔ is_Some (default_permissions_ s !! role))
    ∧ (∀ role, default_permissions_ s' !! role
               = (fun permissions =>
                    if SimplePermission_default role then permissions ++ [it]
                    else permissions) <$> default_permissions_ s !! role)
    ∧ recalculated s'
      = recalculated s
        ++ (if update then notified_for SimplePermission_default roles s else [])
    ∧ logged s' = logged s.
Proof. apply addPermission_fresh. Qed.

End NewNodes.

Lemma addPermission_new_node_witness :
  ∃ it s',
    addPermission Examples.grant_operator "Build.Place" true Examples.with_subscribers
      = Done (it, s')
    ∧ default_permissions_ s' !! Operator = Some [it]
    ∧ default_permissions_ s' !! NonOperator = Some []
    ∧ default_permissions_ s' !! Console = None
    ∧ recalculated s' = [permissible_addr Examples.alice].
Proof.
  destruct (addPermission_new_node Examples.grant_operator "Build.Place" true
              Examples.with_subscribers)
    as (it & s' & roles & Hrun & _ & _ & _ & _ & _ & Hdef & Hrec & _).
  - vm_compute. reflexivity.
  - exists it, s'. split; [exact Hrun|].
    split_and!.
    + rewrite Hdef. vm_compute. reflexivity.
    + rewrite Hdef. vm_compute. reflexivity.
    + rewrite Hdef. vm_compute. reflexivity.
    + clear Hdef Hrec. vm_compute in Hrun. injection Hrun as _ <-. reflexivity.
Defined.

Lemma subscribers_NoDup role s : NoDup (getDefaultPermissionSubscriptions role s).
Proof.
  unfold getDefaultPermissionSubscriptions.
  destruct (default_subscriptions_ s !! role); [|apply NoDup_nil_2].
  apply NoDup_fst_map_to_list.
Qed.

Lemma notified_for_elem policy roles s q :
  q ∈ notified_for policy roles s
  ↔ ∃ role, role ∈ roles ∧ policy role = true
            ∧ q ∈ getDefaultPermissionSubscriptions role s.
Proof.
  induction roles as [|r roles IH]; simpl.
  - split; [by intros ?%elem_of_nil | by intros (? & ?%elem_of_nil & _)].
  - rewrite elem_of_app, IH. split.
    + intros [Hq|(role & Hin & Hp & Hq)].
      * destruct (policy r) eqn:Hp; [|by apply elem_of_nil in Hq].
        exists r. split_and!; [by left|done|done].
      * exists role. split_and!; [by right|done|done].
    + intros (role & Hin & Hp & Hq). apply elem_of_cons in Hin as [->|Hin].
      * left. by rewrite Hp.
      * right. by exists role.
Qed.

Lemma notified_for_once policy roles s q r0 :
  NoDup roles →
  q ∈ notified_for policy roles s →
  (∀ role, q ∈ getDefaultPermissionSubscriptions role s → role = r0) →
  ∃ before after, notified_for policy roles s = before ++ q :: after
                  ∧ (q ∉ before) ∧ q ∉ after.
Proof.
  intros Hnodup Hq Honly.
  induction roles as [|r roles IH]; simpl in *; [by apply elem_of_nil in Hq|].
  apply NoDup_cons in Hnodup as [Hr Hnodup].
  destruct (decide (q ∈ (if policy r then getDefaultPermissionSubscriptions r s else [])))
    as [Hhere|Hnot].
  - destruct (policy r) eqn:Hp; [|by apply elem_of_nil in Hhere].
    assert (Hr0 : r = r0) by (by apply Honly). subst r0.
    assert (Hrest : q ∉ notified_for policy roles s).
    { intros (role & Hin & _ & Hsub)%notified_for_elem.
      apply Honly in Hsub. by subst role. }
    pose proof (subscribers_NoDup r s) as Hnd.
    apply list_elem_of_split in Hhere as (l1 & l2 & Hsplit).
    rewrite Hsplit in Hnd |- *.
    apply NoDup_app in Hnd as (_ & Hl1 & Hl2).
    apply NoDup_cons in Hl2 as [Hl2 _].
    exists l1, (l2 ++ notified_for policy roles s).
    rewrite <- app_assoc. simpl. split_and!; [done| |].
    + intros Hin. apply (Hl1 q Hin). by left.
    + intros [?|?]%elem_of_app; done.
  - apply elem_of_app in Hq as [Hq|Hq]; [done|].
    destruct (IH Hnodup Hq) as (before & after & Heq & Hb & Ha).
    eexists (_ ++ before), after. rewrite Heq, <- app_assoc.
    split_and!; [done| |done].
    intros [?|?]%elem_of_app; done.
Qed.

Section Notifications.

Variable SimplePermission_default : PermissibleRole → bool.

(** X18: Who hears of a new permission added with [update]: exactly the
    default subscribers of the roles that have a default set and that the
    new node's policy grants.  A permissible that is subscribed under one
    role only is notified exactly once; a role without a default set
    notifies nobody, whatever the policy. *)
Theorem addPermission_notifications (name : string) (s : Manager) :
  getPermission name s = None →
  ∃ it s' notified,
    addPermission SimplePermission_default name true s = Done (it, s')
    ∧ recalculated s' = recalculated s ++ notified
    ∧ (∀ q, q ∈ notified
            ↔ ∃ role, is_Some (default_permissions_ s !! role)
                      ∧ SimplePermission_default role = true
                      ∧ q ∈ getDefaultPermissionSubscriptions role s)
    ∧ (∀ q r0, q ∈ notified →
               (∀ role, q ∈ getDefaultPermissionSubscriptions role s → role = r0) →
               ∃ before after, notified = before ++ q :: after
                               ∧ (q ∉ before) ∧ q ∉ after).
Proof.
  intros Hnew.
  destruct (addPermission_fresh SimplePermission_default name true s Hnew)
    as (it & s' & roles & Hrun & _ & _ & _ & Hnodup & Hkeys & _ & Hrec & _).
  exists it, s', (notified_for SimplePermission_default roles s).
  split_and!; try done.
  - intros q. rewrite notified_for_elem. split.
    + intros (role & Hin & Hp & Hq). exists role. by rewrite <- Hkeys.
    + intros (role & Hin & Hp & Hq). exists role. by rewrite Hkeys.
  - intros q r0 Hq Honly. by eapply notified_for_once.
Qed.

End Notifications.

Lemma addPermission_notifications_witness :
  ∃ it s' notified,
    addPermission Examples.grant_operator "Build.Place" true Examples.with_subscribers
      = Done (it, s')
    ∧ recalculated s' = recalculated Examples.with_subscribers ++ notified
    ∧ permissible_addr Examples.alice ∈ notified
    ∧ permissible_addr Examples.bob ∉ notified.
Proof.
  destruct (addPermission_notifications Examples.grant_operator "Build.Place"
              Examples.with_subscribers)
    as (it & s' & notified & Hrun & Hrec & Hwho & _).
  - vm_compute. reflexivity.
  - exists it, s', notified. split_and!; try done.
    + apply Hwho. exists Operator. split_and!.
      * by eexists.
      * reflexivity.
      * vm_compute. by left.
    + intros (role & _ & Hgrant & Hsub)%Hwho.
      destruct role; try discriminate Hgrant.
      vm_compute in Hsub. apply list_elem_of_singleton in Hsub. discriminate Hsub.
Defined.

Lemma recalculatePermissionDefaults_effect (it : addr) (s : Manager) (obj : Permission) :
  permission_store s !! it = Some obj →
  ∃ s' roles,
    recalculatePermissionDefaults it s = Done s'
    ∧ defaults_frame s s'
    ∧ (∀ role, default_permissions_ s' !! role
               = (fun permissions =>
                    filter (fun p => p ≠ it) permissions
                    ++ (if perm_default obj role then [it] else []))
                   <$> default_permissions_ s !! role)
    ∧ NoDup roles
    ∧ (∀ role, role ∈ roles ↔ is_Some (default_permissions_ s !! role))
    ∧ recalculated s' = recalculated s ++ notified_for (perm_default obj) roles s.
Proof.
  intros Hobj. unfold recalculatePermissionDefaults. rewrite Hobj. cbv zeta.
  set (s1 := set_default_permissions_ _ s).
  destruct (calculatePermissionDefault_effect it true s1 obj Hobj)
    as (s' & roles & Hrun & Hframe & Hnodup & Hkeys & Hdef & Hrec).
  exists s', roles. split; [exact Hrun|].
  split; [eapply defaults_frame_trans; [|exact Hframe]; by repeat split|].
  split; [|split; [exact Hnodup|split; [|exact Hrec]]].
  - intros role. rewrite Hdef. subst s1. simpl. rewrite lookup_fmap.
    destruct (default_permissions_ s !! role); simpl; [|done].
    destruct (perm_default obj role); [done|]. by rewrite app_nil_r.
  - intros role. rewrite Hkeys. subst s1. simpl. rewrite lookup_fmap.
    by rewrite fmap_is_Some.
Qed.

(** X19: [recalculatePermissionDefaults] on a live node leaves each default
    set as it was but for the node: every occurrence of the node is taken
    out, and the node is put back once, at the end, in the sets of the
    roles its policy grants.  The default subscribers of the granted roles
    are notified whether or not their set has changed; nothing else
    changes. *)
Theorem recalculatePermissionDefaults_normalises (it : addr) (s : Manager) (obj : Permission) :
  permission_store s !! it = Some obj →
  ∃ s' roles,
    recalculatePermissionDefaults it s = Done s'
    ∧ defaults_frame s s'
    ∧ (∀ role, default_permissions_ s' !! role
               = (fun permissions =>
                    filter (fun p => p ≠ it) permissions
                    ++ (if perm_default obj role then [it] else []))
                   <$> default_permissions_ s !! role)
    ∧ NoDup roles
    ∧ (∀ role, role ∈ roles ↔ is_Some (default_permissions_ s !! role))
    ∧ recalculated s' = recalculated s ++ notified_for (perm_default obj) roles s.
Proof. apply recalculatePermissionDefaults_effect. Qed.

Lemma recalculatePermissionDefaults_normalises_witness :
  ∃ s', recalculatePermissionDefaults 1%positive Examples.with_x = Done s'
        ∧ default_permissions_ s' !! Operator = Some [1%positive]
        ∧ default_permissions_ Examples.with_x !! Operator = Some [1%positive].
Proof.
  destruct (recalculatePermissionDefaults_normalises 1%positive Examples.with_x
              (SimplePermission Examples.grant_operator "x"))
    as (s' & roles & Hrun & _ & Hdef & _).
  - vm_compute. reflexivity.
  - exists s'. split; [exact Hrun|]. split.
    + rewrite Hdef. vm_compute. reflexivity.
    + vm_compute. reflexivity.
Defined.

(** ** The node table under additions and removals *)

(** X20: [removePermission(name)] makes every spelling of [name] unknown and
    leaves the lookup of every other name as it was; on a name that is
    not in the table it changes nothing. *)
Theorem removePermission_exact (name other : string) (s : Manager) :
  getPermission other (removePermission name s)
  = (if decide (lower other = lower name) then None else getPermission other s)
  ∧ (getPermission name s = None → removePermission name s = s).
Proof.
  unfold getPermission, removePermission. split.
  - destruct (permissions_ s !! lower name) as [it|] eqn:Hit; simpl.
    + destruct (decide (lower other = lower name)) as [->|Hne].
      * by rewrite lookup_delete_eq.
      * by rewrite lookup_delete_ne.
    + destruct (decide (lower other = lower name)) as [->|Hne]; [by rewrite Hit|done].
  - by destruct (permissions_ s !! lower name).
Qed.

Section Additions.

Variable SimplePermission_default : PermissibleRole → bool.

Lemma addPermission_table name update s :
  ∃ it s', addPermission SimplePermission_default name update s = Done (it, s')
           ∧ permissions_ s' = <[lower name := it]> (permissions_ s).
Proof.
  destruct (permissions_ s !! lower name) as [it|] eqn:Hit.
  - exists it. eexists. rewrite (addPermission_present _ _ _ _ _ Hit).
    split; [done|]. simpl. symmetry. by apply insert_id.
  - destruct (addPermission_fresh SimplePermission_default name update s)
      as (it & s' & _ & Hrun & _ & _ & Htable & _).
    { unfold getPermission. by rewrite Hit. }
    by exists it, s'.
Qed.

(** X21: [addPermission(name)] returns a node that every spelling of [name]
    then finds, and it leaves the lookup of every other name as it was. *)
Theorem addPermission_lookup (name other : string) (update : bool) (s : Manager) :
  ∃ it s', addPermission SimplePermission_default name update s = Done (it, s')
           ∧ getPermission other s'
             = if decide (lower other = lower name) then Some it else getPermission other s.
Proof.
  destruct (addPermission_table name update s) as (it & s' & Hrun & Htable).
  exists it, s'. split; [done|]. unfold getPermission. rewrite Htable.
  destruct (decide (lower other = lower name)) as [->|Hne].
  - by rewrite lookup_insert_eq.
  - by rewrite lookup_insert_ne.
Qed.

(** X22: A name that was removed can be added again: the second addition is
    not a duplicate, it logs nothing and builds a node of its own. *)
Theorem addPermission_after_removePermission (name : string) (update : bool) (s : Manager) :
  ∃ it s',
    addPermission SimplePermission_default name update (removePermission name s)
      = Done (it, s')
    ∧ logged s' = logged s
    ∧ getPermission name s' = Some it
    ∧ permission_store s' !! it
      = Some (SimplePermission SimplePermission_default (lower name)).
Proof.
  assert (Hgone : getPermission name (removePermission name s) = None).
  { unfold getPermission, removePermission.
    destruct (permissions_ s !! lower name) as [it|] eqn:Hit; simpl.
    - by rewrite lookup_delete_eq.
    - by rewrite Hit. }
  destruct (addPermission_fresh SimplePermission_default name update _ Hgone)
    as (it & s' & _ & Hrun & _ & Hstore & Htable & _ & _ & _ & _ & Hlog).
  exists it, s'. split; [done|]. split_and!.
  - rewrite Hlog. unfold removePermission.
    by destruct (permissions_ s !! lower name).
  - unfold getPermission. by rewrite Htable, lookup_insert_eq.
  - by rewrite Hstore, lookup_insert_eq.
Qed.

End Additions.

(** ** Canonical names *)

Lemma tolower_eq_inv c d : tolower c = tolower d → char_eq_ignore_case c d.
Proof.
  unfold tolower, char_eq_ignore_case, is_upper.
  destruct ((65 <=? nat_of_ascii c)%nat && (nat_of_ascii c <=? 90)%nat) eqn:Hc;
    destruct ((65 <=? nat_of_ascii d)%nat && (nat_of_ascii d <=? 90)%nat) eqn:Hd;
    intros Heq.
  - left.
    apply andb_true_iff in Hc as [Hc1 Hc2]. apply andb_true_iff in Hd as [Hd1 Hd2].
    apply Nat.leb_le in Hc1, Hc2, Hd1, Hd2.
    apply (f_equal nat_of_ascii) in Heq.
    rewrite !nat_ascii_embedding in Heq by lia.
    assert (Hn : nat_of_ascii c = nat_of_ascii d) by lia.
    apply (f_equal ascii_of_nat) in Hn. by rewrite !ascii_nat_embedding in Hn.
  - right. left. split; [done|].
    apply andb_true_iff in Hc as [Hc1 Hc2]. apply Nat.leb_le in Hc1, Hc2.
    rewrite <- Heq. apply nat_ascii_embedding. lia.
  - right. right. split; [done|].
    apply andb_true_iff in Hd as [Hd1 Hd2]. apply Nat.leb_le in Hd1, Hd2.
    rewrite Heq. apply nat_ascii_embedding. lia.
  - by left.
Qed.

(** X23: Two names share a lower-case form, and with it one entry of the node
    table and one list of subscribers, exactly when they are equal up to
    the case of their ASCII letters; and the lower-case form of a name is
    its own lower-case form. *)
Theorem lower_characterises_case (a b : string) :
  (lower a = lower b ↔ eq_ignore_case a b) ∧ lower (lower a) = lower a.
Proof.
  split; [|apply lower_idempotent]. split; [|apply eq_ignore_case_lower].
  revert b. induction a as [|c a IH]; intros [|d b]; simpl; try done.
  - intros _. constructor.
  - intros [= Hcd Hab]. constructor; [by apply tolower_eq_inv | by apply IH].
Qed.

(** ** Loader associations *)

(** X24: [registerLoader] leaves the association of every pattern that the
    loader does not declare as it was; a loader without patterns changes
    nothing at all. *)
Theorem registerLoader_undeclared_pattern (loader : PluginLoader) (q : string) (s : Manager) :
  q ∉ getPluginFileFilters loader →
  assoc_find q (file_associations_ (registerLoader loader s))
  = assoc_find q (file_associations_ s).
Proof.
  intros Hq. unfold registerLoader. simpl. by apply registerLoader_loop_other.
Qed.

Lemma registerLoader_undeclared_pattern_witness :
  assoc_find ".so"
    (file_associations_
       (registerLoader {| loader_loadPlugin := fun _ => None;
                          getPluginFileFilters := [".py"] |} Examples.with_so_loader))
  = assoc_find ".so" (file_associations_ Examples.with_so_loader).
Proof.
  apply (registerLoader_undeclared_pattern
           {| loader_loadPlugin := fun _ => None; getPluginFileFilters := [".py"] |}
           ".so" Examples.with_so_loader).
  intros Hin%list_elem_of_singleton. discriminate Hin.
Defined.

(** X25: The first pattern that a loader declares is associated with that
    loader after [registerLoader], whatever was registered for it before
    (the last registration wins), unless the loader declares the pattern
    a second time. *)
Theorem registerLoader_last_wins
    (loader : PluginLoader) (first : string) (others : list string) (s : Manager) :
  getPluginFileFilters loader = first :: others →
  first ∉ others →
  assoc_find first (file_associations_ (registerLoader loader s)) = Some (Some loader).
Proof. intros Hfilters Hfirst. by eapply registerLoader_first_pattern. Qed.

Lemma registerLoader_last_wins_witness :
  assoc_find ".so"
    (file_associations_
       (registerLoader {| loader_loadPlugin := fun _ => None;
                          getPluginFileFilters := [".so"] |} Examples.with_so_loader))
  = Some (Some {| loader_loadPlugin := fun _ => None; getPluginFileFilters := [".so"] |}).
Proof.
  apply (registerLoader_last_wins
           {| loader_loadPlugin := fun _ => None; getPluginFileFilters := [".so"] |}
           ".so" [] Examples.with_so_loader).
  - reflexivity.
  - apply not_elem_of_nil.
Defined.

(** ** Recalculating twice *)

Lemma filter_out_twice (it : addr) (l extra : list addr) :
  (extra = [it] ∨ extra = []) →
  filter (fun p => p ≠ it) (filter (fun p => p ≠ it) l ++ extra)
  = filter (fun p => p ≠ it) l.
Proof.
  intros Hextra. rewrite filter_app.
  assert (Hnone : filter (fun p => p ≠ it) extra = []).
  { destruct Hextra as [->| ->]; [|done]. by rewrite filter_cons, decide_False by auto. }
  rewrite Hnone, app_nil_r.
  induction l as [|x l IH]; [done|].
  rewrite filter_cons. destruct (decide (x ≠ it)) as [Hx|Hx]; [|exact IH].
  rewrite filter_cons, decide_True by done. by rewrite IH.
Qed.

(** X26: A second [recalculatePermissionDefaults] on the same node finds the
    default sets already in their final form and leaves them so; it
    notifies the subscribers again all the same. *)
Theorem recalculatePermissionDefaults_twice (it : addr) (s : Manager) (obj : Permission) :
  permission_store s !! it = Some obj →
  ∃ s1 s2 roles,
    recalculatePermissionDefaults it s = Done s1
    ∧ recalculatePermissionDefaults it s1 = Done s2
    ∧ default_permissions_ s2 = default_permissions_ s1
    ∧ recalculated s2 = recalculated s1 ++ notified_for (perm_default obj) roles s
    ∧ ∀ role, role ∈ roles ↔ is_Some (default_permissions_ s !! role).
Proof.
  intros Hobj.
  destruct (recalculatePermissionDefaults_effect it s obj Hobj)
    as (s1 & roles1 & Hrun1 & Hframe1 & Hdef1 & _ & Hkeys1 & _).
  assert (Hobj1 : permission_store s1 !! it = Some obj).
  { destruct Hframe1 as (_&_&_&_&_&Hstore&_). by rewrite Hstore. }
  destruct (recalculatePermissionDefaults_effect it s1 obj Hobj1)
    as (s2 & roles2 & Hrun2 & Hframe2 & Hdef2 & _ & Hkeys2 & Hrec2).
  exists s1, s2, roles2. split; [done|]. split; [done|]. split_and!.
  - apply map_eq. intros role. rewrite Hdef2, Hdef1.
    destruct (default_permissions_ s !! role) as [l|]; simpl; [|done].
    f_equal. f_equal. apply filter_out_twice.
    destruct (perm_default obj role); auto.
  - rewrite Hrec2. f_equal. apply notified_for_frame.
    by destruct Hframe1 as (_&_&_&_&_&_&?&_).
  - intros role. rewrite Hkeys2, Hdef1. by rewrite fmap_is_Some.
Qed.

Lemma recalculatePermissionDefaults_twice_witness :
  ∃ s1 s2,
    recalculatePermissionDefaults 1%positive Examples.with_x = Done s1
    ∧ recalculatePermissionDefaults 1%positive s1 = Done s2
    ∧ default_permissions_ s2 = default_permissions_ s1.
Proof.
  destruct (recalculatePermissionDefaults_twice 1%positive Examples.with_x
              (SimplePermission Examples.grant_operator "x"))
    as (s1 & s2 & _ & Hrun1 & Hrun2 & Hsame & _).
  - vm_compute. reflexivity.
  - by exists s1, s2.
Defined.

(** ** Flags and the registry *)

Lemma flag_update_consistent s s' plugin obj b :
  registry_consistent s →
  plugin_store s !! plugin = Some obj →
  plugins_ s' = plugins_ s →
  lookup_names_ s' = lookup_names_ s →
  plugin_store s' = <[plugin := setEnabled b obj]> (plugin_store s) →
  registry_consistent s'.
Proof.
  intros (Hnodup & Halive & Hnames) Hobj Hpl Hln Hst.
  unfold registry_consistent, plugin_name_at. rewrite Hpl, Hln, Hst. split_and!.
  - done.
  - intros a Ha. destruct (decide (plugin = a)) as [->|Hne].
    + rewrite lookup_insert_eq. by eexists.
    + rewrite lookup_insert_ne by done. by apply Halive.
  - intros name a Ha. destruct (Hnames name a Ha) as [Hin Hname].
    split; [done|]. unfold plugin_name_at in Hname.
    destruct (decide (plugin = a)) as [->|Hne].
    + rewrite lookup_insert_eq. by rewrite Hobj in Hname.
    + by rewrite lookup_insert_ne.
Qed.

(** X27: [enablePlugin] and [disablePlugin] on a live plugin of a consistent
    registry return, keep the registry consistent, set the flag of that
    one plugin and leave every other object, the owned collection and the
    name index as they were. *)
Theorem toggling_keeps_consistency (plugin : addr) (s : Manager) (obj : Plugin) :
  registry_consistent s →
  plugin_store s !! plugin = Some obj →
  (∃ s', enablePlugin plugin s = Done s'
         ∧ registry_consistent s'
         ∧ plugin_store s' = <[plugin := setEnabled true obj]> (plugin_store s)
         ∧ getPlugins s' = getPlugins s
         ∧ ∀ name, getPlugin name s' = getPlugin name s)
  ∧ (∃ s', disablePlugin plugin s = Done s'
           ∧ registry_consistent s'
           ∧ plugin_store s' = <[plugin := setEnabled false obj]> (plugin_store s)
           ∧ getPlugins s' = getPlugins s
           ∧ ∀ name, getPlugin name s' = getPlugin name s).
Proof.
  intros Hcons Hobj. split.
  - destruct (isEnabled obj) eqn:Hen.
    + exists s. rewrite (enablePlugin_enabled plugin s obj Hobj Hen).
      assert (Hst : plugin_store s = <[plugin := setEnabled true obj]> (plugin_store s)).
      { rewrite <- Hen, setEnabled_same. symmetry. by apply insert_id. }
      split_and!; try done.
    + rewrite (enablePlugin_effect plugin s obj Hobj Hen).
      eexists. split; [done|]. split_and!; try done.
      by eapply (flag_update_consistent s _ plugin obj true).
  - destruct (disablePlugin_effect plugin s obj Hobj)
      as (s' & Hrun & Hst & Hpl & Hln & _).
    exists s'. split; [done|]. split_and!; try done.
    + by eapply (flag_update_consistent s s' plugin obj false).
    + intros name. unfold getPlugin. by rewrite Hln.
Qed.

Lemma toggling_keeps_consistency_witness :
  (∃ s', enablePlugin 1%positive Examples.with_demo = Done s' ∧ registry_consistent s')
  ∧ (∃ s', disablePlugin 1%positive Examples.with_demo = Done s' ∧ registry_consistent s').
Proof.
  destruct (toggling_keeps_consistency 1%positive Examples.with_demo
              (Examples.plugin_called "demo"))
    as [(s1 & Hrun1 & Hcons1 & _) (s2 & Hrun2 & Hcons2 & _)].
  - apply with_demo_consistent.
  - vm_compute. reflexivity.
  - split; [by exists s1 | by exists s2].
Defined.

(** * A null loader under a pattern *)

(** C6: on the manager that [registerLoader] leaves after a loader with
    one pattern and a loader with two, a directory that holds a script,
    which loads, and a shared object, whose pattern is left with a null
    loader, makes [loadPlugins] dereference the null pointer: the scan
    is cut short and no list comes back, although the script is a
    candidate that loads. *)
Theorem loadPlugins_aborted_by_null_loader :
  fs_is_directory Examples.mods_disk "mods" = true
  ∧ candidates Examples.mods_disk "mods" = ["mods/a.py"; "mods/b.so"]
  ∧ (∃ s1, loadPlugin Examples.suffix_search Examples.mods_disk "mods/a.py"
             Examples.with_two_loaders = Done (Some 1%positive, s1))
  ∧ first_built Examples.suffix_search (file_associations_ Examples.with_two_loaders)
      "mods/b.so" = Undefined "loader->loadPlugin on a null loader"
  ∧ loadPlugins Examples.suffix_search Examples.mods_disk "mods" Examples.with_two_loaders
    = Undefined "loader->loadPlugin on a null loader".
Proof.
  split_and!.
  - vm_compute. reflexivity.
  - vm_compute. reflexivity.
  - eexists. vm_compute. reflexivity.
  - vm_compute. reflexivity.
  - vm_compute. reflexivity.
Qed.

(** * The default sets of a reached manager *)

Section Reached.

Variable regex_search : string → string → option bool.
Variable fs : FileSystem.
Variable SimplePermission_default : PermissibleRole → bool.






End Reached.

